(** * magic-aborter: a shallow embedding of [src/index.ts]

    The class [MagicAborter] keeps four private fields: the flag
    [_aborted], the array [children], the array [collections] and a
    [mitt] emitter.  Instances are JavaScript objects, shared by
    reference between parents, callers and callbacks, so the embedding
    keeps them in a store indexed by object identity and every method
    takes the identity of [this] and the store.

    Listeners and the [abort] procedures of collected objects are code
    supplied by the caller.  Their bodies are given by two tables that
    map the identity of a callback to a small script; a script can call
    back into [collect] and [abort] and can raise.  Every invocation of
    a callback is recorded in a trace, which is what the statements
    about ordering and counting are written against. *)

From stdpp Require Import gmap list.
From Stdlib Require Import ZArith Lia.

Local Open Scope Z_scope.
Local Open Scope nat_scope.

(** ** Arrays *)

Module JsArray.

(** [Array.prototype.includes] on an array of object references. *)
Definition includes (l : list nat) (x : nat) : bool := bool_decide (x ∈ l).

(** [Array.prototype.indexOf]: the first index holding [x], or [-1]. *)
Fixpoint indexOf (l : list nat) (x : nat) : Z :=
  match l with
  | [] => (-1)%Z
  | y :: r =>
      if decide (y = x) then 0%Z
      else let i := indexOf r x in
           if (i <? 0)%Z then (-1)%Z else (i + 1)%Z
  end.

(** [Array.prototype.splice(start, deleteCount)] without inserted items:
    a negative [start] counts from the end of the array. *)
Definition splice (l : list nat) (start deleteCount : Z) : list nat :=
  let len := Z.of_nat (length l) in
  let actualStart :=
    if (start <? 0)%Z then Z.max (len + start) 0 else Z.min start len in
  let actualDelete := Z.min (Z.max deleteCount 0) (len - actualStart) in
  take (Z.to_nat actualStart) l
    ++ drop (Z.to_nat (actualStart + actualDelete)) l.

(** [x >>> 0]: the unsigned 32-bit reading of an integer. *)
Definition to_uint32 (z : Z) : Z := (z mod 2 ^ 32)%Z.

End JsArray.

(** ** The emitter *)

(** [EventType = "abort" | "aborted"]. *)
Inductive EventType := Abort | Aborted.

#[global] Instance EventType_eq_dec : EqDecision EventType.
Proof. solve_decision. Defined.

(** Modelled from the spec: the emitter is the package [mitt], which
    is imported by [src/index.ts] and whose source is not part of it.
    It keeps, for each event kind, the ordered sequence of callbacks:
    [on] appends (no duplicate check), [off] removes the first
    identity match and does nothing when there is none, and [emit]
    calls the callbacks of the kind in registration order. *)
Module Mitt.

Record t := { abort_handlers : list nat; aborted_handlers : list nat }.

Definition mitt : t := {| abort_handlers := []; aborted_handlers := [] |}.

Definition get (e : t) (k : EventType) : list nat :=
  match k with Abort => abort_handlers e | Aborted => aborted_handlers e end.

Definition set (e : t) (k : EventType) (hs : list nat) : t :=
  match k with
  | Abort => {| abort_handlers := hs; aborted_handlers := aborted_handlers e |}
  | Aborted => {| abort_handlers := abort_handlers e; aborted_handlers := hs |}
  end.

Definition on (e : t) (k : EventType) (l : nat) : t :=
  set e k (get e k ++ [l]).

Definition off (e : t) (k : EventType) (l : nat) : t :=
  set e k (JsArray.splice (get e k)
             (JsArray.to_uint32 (JsArray.indexOf (get e k) l)) 1).

End Mitt.

(** ** The store of aborters *)

(** The private fields of one [MagicAborter] instance.  [children]
    holds identities of aborters, [collections] identities of
    abortables. *)
Record MagicAborter := {
  _aborted : bool;
  children : list nat;
  collections : list nat;
  emitter : Mitt.t
}.

(** The field initialisers of the class. *)
Definition fresh : MagicAborter :=
  {| _aborted := false; children := []; collections := []; emitter := Mitt.mitt |}.

(** An identity that was never written denotes an instance as the
    field initialisers leave it. *)
Definition deref (h : gmap nat MagicAborter) (s : nat) : MagicAborter :=
  default fresh (h !! s).

Definition set__aborted (v : bool) (a : MagicAborter) : MagicAborter :=
  {| _aborted := v; children := children a;
     collections := collections a; emitter := emitter a |}.

Definition set_children (cs : list nat) (a : MagicAborter) : MagicAborter :=
  {| _aborted := _aborted a; children := cs;
     collections := collections a; emitter := emitter a |}.

Definition set_collections (os : list nat) (a : MagicAborter) : MagicAborter :=
  {| _aborted := _aborted a; children := children a;
     collections := os; emitter := emitter a |}.

Definition set_emitter (e : Mitt.t) (a : MagicAborter) : MagicAborter :=
  {| _aborted := _aborted a; children := children a;
     collections := collections a; emitter := e |}.

(** In-place update of the instance [s]. *)
Definition update (s : nat) (f : MagicAborter -> MagicAborter)
    (h : gmap nat MagicAborter) : gmap nat MagicAborter :=
  <[s := f (deref h s)]> h.

(** [constructor(options)]: [this.children = options.children || []].
    The source keeps the array it is given, so an array that the caller
    also keeps, or gives to a second aborter, is shared.  In this store
    every aborter has a [children] array of its own: [options] stands
    for an array that nothing else refers to (an array literal, or
    none).  Arrays held by several aborters are the subject of
    [ByReference] below. *)
Definition constructor (s : nat) (options : option (list nat))
    (h : gmap nat MagicAborter) : gmap nat MagicAborter :=
  <[s := set_children (default [] options) fresh]> h.

Definition createMagicAborter := constructor.

(** [Array.prototype.every] over a callback that may fail to return:
    it stops at the first [false]. *)
Fixpoint every (f : nat -> option bool) (l : list nat) : option bool :=
  match l with
  | [] => Some true
  | x :: r =>
      match f x with
      | Some true => every f r
      | other => other
      end
  end.

(** [get aborted()]: [this._aborted && this.children.every(i => i.aborted)].
    The recursion follows the children through the store, so it is
    bounded by [n] nested calls; [None] is a call stack that ran out. *)
Fixpoint aborted (n : nat) (h : gmap nat MagicAborter) (s : nat) : option bool :=
  match n with
  | 0 => None
  | S n =>
      if _aborted (deref h s)
      then every (aborted n h) (children (deref h s))
      else Some false
  end.

(** [set aborted(value)]: [this._aborted = value]. *)
Definition set_aborted (s : nat) (value : bool)
    (h : gmap nat MagicAborter) : gmap nat MagicAborter :=
  update s (set__aborted value) h.

(** [collect(abortable)]. *)
Definition collect (s : nat) (abortable : nat)
    (h : gmap nat MagicAborter) : gmap nat MagicAborter :=
  let h1 :=
    if negb (JsArray.includes (collections (deref h s)) abortable)
    then update s (fun a => set_collections (collections a ++ [abortable]) a) h
    else h in
  set_aborted s false h1.

(** [on], [off], [onAbort], [onAborted]. *)
Definition on (s : nat) (event : EventType) (listener : nat)
    (h : gmap nat MagicAborter) : gmap nat MagicAborter :=
  update s (fun a => set_emitter (Mitt.on (emitter a) event listener) a) h.

Definition off (s : nat) (event : EventType) (listener : nat)
    (h : gmap nat MagicAborter) : gmap nat MagicAborter :=
  update s (fun a => set_emitter (Mitt.off (emitter a) event listener) a) h.

Definition onAbort (s listener : nat) := on s Abort listener.
Definition onAborted (s listener : nat) := on s Aborted listener.

(** [addChildAborter(child)]: [this.children.push(child)]. *)
Definition addChildAborter (s child : nat)
    (h : gmap nat MagicAborter) : gmap nat MagicAborter :=
  update s (fun a => set_children (children a ++ [child]) a) h.

(** [removeChildAborter(child)]:
    [this.children.splice(this.children.indexOf(child), 1)]. *)
Definition removeChildAborter (s child : nat)
    (h : gmap nat MagicAborter) : gmap nat MagicAborter :=
  update s (fun a =>
    set_children (JsArray.splice (children a) (JsArray.indexOf (children a) child) 1) a) h.

(** ** The children arrays, held by reference *)

(** [this.children = children] keeps the array the caller passed, and
    [push] and [splice] change that array in place.  Here the arrays
    are objects of their own: [arrays] gives the elements of each
    array, [children_ref] the array each aborter holds.  Several
    aborters can hold one array. *)
Module ByReference.

Record hierarchy := {
  arrays : gmap nat (list nat);
  children_ref : gmap nat nat
}.

(** An array literal with the elements [l]: a new array. *)
Definition new_array (l : list nat) (hy : hierarchy) : nat * hierarchy :=
  let r := stdpp.base.fresh (dom (arrays hy)) in
  (r, {| arrays := <[r := l]> (arrays hy); children_ref := children_ref hy |}).

(** [constructor(options)]: [const { children = [] } = options || {};
    this.children = children].  [Some r] is a call that passes the
    array [r]; [None] a call without [options.children], for which the
    default [[]] is evaluated: a new array. *)
Definition constructor (s : nat) (options : option nat) (hy : hierarchy) : hierarchy :=
  match options with
  | Some r => {| arrays := arrays hy; children_ref := <[s := r]> (children_ref hy) |}
  | None =>
      let (r, hy') := new_array [] hy in
      {| arrays := arrays hy'; children_ref := <[s := r]> (children_ref hy') |}
  end.

(** The elements of [this.children]. *)
Definition children (hy : hierarchy) (s : nat) : list nat :=
  default [] (children_ref hy !! s ≫= fun r => arrays hy !! r).

(** [this.children.push(child)]. *)
Definition addChildAborter (s child : nat) (hy : hierarchy) : hierarchy :=
  match children_ref hy !! s with
  | Some r =>
      {| arrays := <[r := children hy s ++ [child]]> (arrays hy);
         children_ref := children_ref hy |}
  | None => hy
  end.

(** [this.children.splice(this.children.indexOf(child), 1)]. *)
Definition removeChildAborter (s child : nat) (hy : hierarchy) : hierarchy :=
  match children_ref hy !! s with
  | Some r =>
      {| arrays := <[r := JsArray.splice (children hy s)
                            (JsArray.indexOf (children hy s) child) 1]> (arrays hy);
         children_ref := children_ref hy |}
  | None => hy
  end.

(** Every aborter holds an array that exists. *)
Definition well_formed (hy : hierarchy) : Prop :=
  forall t r, children_ref hy !! t = Some r -> is_Some (arrays hy !! r).

End ByReference.

(** ** Callbacks, traces and outcomes *)

(** What a callback body can do to the aborters: call [collect], call
    [abort], or raise. *)
Inductive action :=
| Collect (s abortable : nat)
| CallAbort (s : nat)
| Throw.

(** The calls an aborter makes to code outside the class, in order:
    [emitter.emit], each listener the emitter calls, and each
    [abortable.abort()] of the drain loop. *)
#[global] Instance action_eq_dec : EqDecision action.
Proof. solve_decision. Defined.

Inductive event :=
| EvEmit (s : nat) (k : EventType)
| EvListener (s : nat) (k : EventType) (l : nat)
| EvOp (s : nat) (o : nat).

#[global] Instance event_eq_dec : EqDecision event.
Proof. solve_decision. Defined.

Record state := { heap : gmap nat MagicAborter; trace : list event }.

Definition with_heap (f : gmap nat MagicAborter -> gmap nat MagicAborter)
    (st : state) : state :=
  {| heap := f (heap st); trace := trace st |}.

Definition log (e : event) (st : state) : state :=
  {| heap := heap st; trace := trace st ++ [e] |}.

(** A call returns, raises (with the store as it is at the raise), or
    exhausts the bound on nested calls and loop iterations. *)
Inductive outcome :=
| Done (st : state)
| Thrown (st : state)
| OutOfFuel.

Definition and_then (r : outcome) (k : state -> outcome) : outcome :=
  match r with
  | Done st => k st
  | other => other
  end.

(** Calling [f] on each element of an array snapshot, left to right;
    an exception ends the iteration. *)
Fixpoint seq_each {A} (f : A -> state -> outcome) (l : list A)
    (st : state) : outcome :=
  match l with
  | [] => Done st
  | x :: r => and_then (f x st) (seq_each f r)
  end.

Section Program.

(** The body of [o.abort] for each abortable [o], and the body of each
    listener. *)
Variable op_abort : nat -> list action.
Variable listener_body : nat -> list action.

Section Calls.

(** The method [abort] as seen from a callback. *)
Variable call_abort : nat -> state -> outcome.

Definition do_action (a : action) (st : state) : outcome :=
  match a with
  | Collect s o => Done (with_heap (collect s o) st)
  | CallAbort s => call_abort s st
  | Throw => Thrown st
  end.

Definition run (body : list action) (st : state) : outcome :=
  seq_each do_action body st.

(** [this.emitter.emit(k)]: the emitter calls a copy of the handler
    list of [k], taken when [emit] starts. *)
Definition emit (s : nat) (k : EventType) (st : state) : outcome :=
  seq_each (fun l st' => run (listener_body l) (log (EvListener s k l) st'))
    (Mitt.get (emitter (deref (heap st) s)) k)
    (log (EvEmit s k) st).

(** [while (this.collections.length) this.collections.shift()!.abort()]. *)
Fixpoint drain (n : nat) (s : nat) (st : state) : outcome :=
  match n with
  | 0 => OutOfFuel
  | S n =>
      match collections (deref (heap st) s) with
      | [] => Done st
      | o :: rest =>
          and_then
            (run (op_abort o)
               (log (EvOp s o) (with_heap (update s (set_collections rest)) st)))
            (drain n s)
      end
  end.

End Calls.

(** [abort()].  No callback can change a [children] array, so calling
    [forEach] on the array as it is when the loop starts is the same as
    iterating over the live array. *)
Fixpoint abort (n : nat) (s : nat) (st : state) : outcome :=
  match n with
  | 0 => OutOfFuel
  | S n =>
      match aborted n (heap st) s with
      | None => OutOfFuel
      | Some true => Done st
      | Some false =>
          and_then (emit (abort n) s Abort st) (fun st1 =>
          and_then (drain (abort n) n s st1) (fun st2 =>
          and_then (seq_each (abort n) (children (deref (heap st2) s)) st2) (fun st3 =>
          emit (abort n) s Aborted (with_heap (set_aborted s true) st3))))
      end
  end.

End Program.


(** ** Predicates used by the statements *)

(** The scope an event belongs to. *)
Definition ev_scope (e : event) : nat :=
  match e with
  | EvEmit s _ => s
  | EvListener s _ _ => s
  | EvOp s _ => s
  end.

(** The derived query in the words of its documentation: an aborter
    reports aborted when its own flag is set and every child reports
    aborted, recursively. *)
#[warnings="-register-all"] Inductive canceled (h : gmap nat MagicAborter) : nat -> Prop :=
| canceled_intro s :
    _aborted (deref h s) = true ->
    Forall (canceled h) (children (deref h s)) ->
    canceled h s.

(** The children relation is a hierarchy: [rk] decreases from parent to
    child, so no aborter is its own descendant. *)
Definition ranked (rk : nat -> nat) (h : gmap nat MagicAborter) : Prop :=
  forall s c, c ∈ children (deref h s) -> rk c < rk s.

(** Every callback registered in the store returns without raising and
    without calling back into an aborter. *)
Definition quiet_aborter (op_abort listener_body : nat -> list action)
    (a : MagicAborter) : Prop :=
  Forall (fun o => op_abort o = []) (collections a)
  /\ forall k, Forall (fun l => listener_body l = []) (Mitt.get (emitter a) k).

Definition quiet (op_abort listener_body : nat -> list action)
    (h : gmap nat MagicAborter) : Prop :=
  forall s, quiet_aborter op_abort listener_body (deref h s).

(** The same for the aborters of rank below [b] only. *)
Definition quiet_below (op_abort listener_body : nat -> list action)
    (rk : nat -> nat) (b : nat) (h : gmap nat MagicAborter) : Prop :=
  forall s, rk s < b -> quiet_aborter op_abort listener_body (deref h s).

(** How a store can change while well-behaved callbacks run: children
    and listeners stay, own flags are only raised, and an operation
    list is either left alone or emptied. *)
Definition evolves (h h' : gmap nat MagicAborter) : Prop :=
  forall t,
    children (deref h' t) = children (deref h t)
    /\ emitter (deref h' t) = emitter (deref h t)
    /\ (_aborted (deref h t) = true -> _aborted (deref h' t) = true)
    /\ (collections (deref h' t) = collections (deref h t)
        \/ collections (deref h' t) = []).

(** The calls one [abort] pass of [s] makes when it runs to the end:
    the listeners of ["abort"], the collected operations in order, the
    calls [mid] made by the passes of the children, the listeners of
    ["aborted"]. *)
Definition pass_trace (a : MagicAborter) (s : nat) (mid : list event) : list event :=
  EvEmit s Abort :: map (EvListener s Abort) (Mitt.get (emitter a) Abort)
    ++ map (EvOp s) (collections a)
    ++ mid
    ++ EvEmit s Aborted :: map (EvListener s Aborted) (Mitt.get (emitter a) Aborted).

(** The store after the drain loop of [s] has run with operations that
    do not touch it. *)
Definition drained (s : nat) (h : gmap nat MagicAborter) : gmap nat MagicAborter :=
  match collections (deref h s) with
  | [] => h
  | _ :: _ => update s (set_collections []) h
  end.

(** A change of the store that touches only the flag and the operation
    list of [s]. *)
Definition only_changes (s : nat) (h h' : gmap nat MagicAborter) : Prop :=
  (forall t, s <> t -> deref h' t = deref h t)
  /\ children (deref h' s) = children (deref h s)
  /\ emitter (deref h' s) = emitter (deref h s).

(** What one call [s.abort()] leaves behind when every callback in the
    store is well behaved: the store has evolved, [s] reports aborted,
    the calls made belong to [s] and its descendants; a call on an
    aborter that already reported aborted changed nothing, and any
    other call emptied the operation list and made the calls of one
    full pass. *)
Definition pass_ok (rk : nat -> nat) (s : nat) (st st' : state) : Prop :=
  evolves (heap st) (heap st')
  /\ canceled (heap st') s
  /\ exists tr',
      trace st' = trace st ++ tr'
      /\ Forall (fun e => rk (ev_scope e) <= rk s) tr'
      /\ (canceled (heap st) s -> st' = st)
      /\ (~ canceled (heap st) s ->
          collections (deref (heap st') s) = []
          /\ exists mid,
              Forall (fun e => rk (ev_scope e) < rk s) mid
              /\ tr' = pass_trace (deref (heap st) s) s mid).

(** ** Example programs *)

(** A parent [0] with one child [1]; [0] has collected the operations
    [3] and [4], [1] the operation [5]; [0] has one listener for each
    event kind.  No callback does anything. *)
Definition ex_heap : gmap nat MagicAborter :=
  onAborted 0 11 (onAbort 0 10
    (collect 1 5 (collect 0 4 (collect 0 3 (addChildAborter 0 1 ∅))))).

Definition ex_state : state := {| heap := ex_heap; trace := [] |}.

Definition ex_rank (s : nat) : nat := if decide (s = 0) then 1 else 0.

Definition no_actions (i : nat) : list action := [].

(** Callback tables in which the callback [i] raises, or calls
    [s.collect(o)], and every other callback does nothing. *)
Definition throwing (i : nat) (j : nat) : list action :=
  if decide (j = i) then [Throw] else [].

Definition collecting (i s o : nat) (j : nat) : list action :=
  if decide (j = i) then [Collect s o] else [].

(** The aborter [2] after [abort()] on a new instance. *)
Definition ex_done : state := {| heap := set_aborted 2 true ∅; trace := [] |}.

(** A parent [0] whose flag is set, with the children [1], which
    reports aborted, and [2], which does not. *)
Definition ex_family : state :=
  {| heap := set_aborted 1 true (set_aborted 0 true
               (addChildAborter 0 2 (addChildAborter 0 1 ∅)));
     trace := [] |}.

(** A new aborter [5] created over the child [2], which has been
    aborted before. *)
Definition ex_new : state :=
  {| heap := createMagicAborter 5 (Some [2]) (set_aborted 2 true ∅); trace := [] |}.

Definition ex_new_rank (s : nat) : nat := if decide (s = 5) then 1 else 0.

(** An aborter [0] that was added to itself. *)
Definition ex_self : state := {| heap := addChildAborter 0 0 ∅; trace := [] |}.


(** The aborter [2] after a pass, with a listener [11] for ["aborted"]. *)
Definition ex_rearmed : state :=
  {| heap := onAborted 2 11 (set_aborted 2 true ∅); trace := [] |}.

(** The aborter [0] after [collect(9)], [collect(9)], [collect(8)]. *)
Definition ex_twice : state :=
  {| heap := collect 0 8 (collect 0 9 (collect 0 9 ∅)); trace := [] |}.

(** The aborters [1] and [2], constructed over one array [[3; 4]]. *)
Definition ex_shared : ByReference.hierarchy :=
  let (r, hy) := ByReference.new_array [3; 4]
                   {| ByReference.arrays := ∅; ByReference.children_ref := ∅ |} in
  ByReference.constructor 2 (Some r) (ByReference.constructor 1 (Some r) hy).

(** ** Predicates for runs with arbitrary callbacks *)

(** What holds of the state in which a call ends, when it returns or
    raises. *)
Definition ends_with (P : state -> Prop) (r : outcome) : Prop :=
  match r with
  | Done st' => P st'
  | Thrown st' => P st'
  | OutOfFuel => True
  end.

(** The trace has only grown, and every operation that has left a
    [collections] array has had its [abort] called meanwhile. *)
Definition accounted (st st' : state) : Prop :=
  exists tr',
    trace st' = trace st ++ tr'
    /\ forall t o, o ∈ collections (deref (heap st) t) ->
                   o ∉ collections (deref (heap st') t) ->
                   EvOp t o ∈ tr'.

(** No [collections] array holds an object twice. *)
Definition duplicate_free (h : gmap nat MagicAborter) : Prop :=
  forall t, NoDup (collections (deref h t)).

(** Every aborter has the children it had. *)
Definition same_children (st st' : state) : Prop :=
  forall t, children (deref (heap st') t) = children (deref (heap st) t).

(** The store has evolved, the trace has grown, and every operation
    whose [abort] was called meanwhile was in the [collections] array of
    the aborter that called it. *)
Definition aborts_collected (st st' : state) : Prop :=
  evolves (heap st) (heap st')
  /\ exists tr',
       trace st' = trace st ++ tr'
       /\ forall t x, EvOp t x ∈ tr' -> x ∈ collections (deref (heap st) t).

(** The invocation [e] of a callback runs a body that calls
    [s.collect(o')]. *)
Definition registers (op_abort listener_body : nat -> list action)
    (s o' : nat) (e : event) : Prop :=
  match e with
  | EvEmit _ _ => False
  | EvListener _ _ l => Collect s o' ∈ listener_body l
  | EvOp _ o => Collect s o' ∈ op_abort o
  end.

(** What holds of a stretch of a run that has returned, for the
    operation [o'] and the aborter [s]: the trace has grown by [tr'],
    the operations that have left a [collections] array have been
    aborted, and every callback of the stretch that called
    [s.collect(o')] has been followed by a call of [o'.abort] by [s],
    unless [o'] is still collected.  With [reg], the stretch is the run
    of a body that itself calls [s.collect(o')]. *)
Definition observes (op_abort listener_body : nat -> list action)
    (s o' : nat) (reg : Prop) (st st' : state) : Prop :=
  exists tr',
    trace st' = trace st ++ tr'
    /\ (forall t o, o ∈ collections (deref (heap st) t) ->
                    o ∉ collections (deref (heap st') t) ->
                    EvOp t o ∈ tr')
    /\ (forall ta e tb, tr' = ta ++ e :: tb ->
                        registers op_abort listener_body s o' e ->
                        EvOp s o' ∈ tb \/ o' ∈ collections (deref (heap st') s))
    /\ (reg -> EvOp s o' ∈ tr' \/ o' ∈ collections (deref (heap st') s)).

(** [t] is [s] or is reached from [s] through [children]. *)
Definition descendant (h : gmap nat MagicAborter) : nat -> nat -> Prop :=
  rtc (fun p c => c ∈ children (deref h p)).

(** An aborter whose flag has been raised has an empty operation list. *)
Definition raised_empty (h h' : gmap nat MagicAborter) : Prop :=
  forall t, _aborted (deref h t) = false -> _aborted (deref h' t) = true ->
            collections (deref h' t) = [].

(** Only [s] and its descendants have changed. *)
Definition outside_untouched (s : nat) (h h' : gmap nat MagicAborter) : Prop :=
  forall t, ~ descendant h s t -> deref h' t = deref h t.

(** The store operations are kept folded by [simpl]. *)
#[global] Arguments deref : simpl never.
#[global] Arguments update : simpl never.
#[global] Arguments set_aborted : simpl never.
#[global] Arguments collect : simpl never.
#[global] Arguments drained : simpl never.

(** ** The store *)

Lemma deref_insert_eq (h : gmap nat MagicAborter) s a :
  deref (<[s := a]> h) s = a.
Proof. unfold deref. by rewrite lookup_insert_eq. Qed.

Lemma deref_insert_ne (h : gmap nat MagicAborter) s t a :
  s <> t -> deref (<[s := a]> h) t = deref h t.
Proof. intros Hne. unfold deref. by rewrite lookup_insert_ne. Qed.

Lemma deref_update_eq h s f : deref (update s f h) s = f (deref h s).
Proof. apply deref_insert_eq. Qed.

Lemma deref_update_ne h s t f : s <> t -> deref (update s f h) t = deref h t.
Proof. apply deref_insert_ne. Qed.

Lemma deref_empty s : deref ∅ s = fresh.
Proof. unfold deref. by rewrite lookup_empty. Qed.

(** A property of every stored aborter that [fresh] has too holds at
    every identity. *)
Lemma deref_map_Forall (P : nat -> MagicAborter -> Prop) (h : gmap nat MagicAborter) :
  map_Forall P h -> (forall s, P s fresh) -> forall s, P s (deref h s).
Proof.
  intros Hall Hfresh s. unfold deref.
  destruct (h !! s) as [a|] eqn:E; simpl; [by eapply Hall | apply Hfresh].
Qed.

(** ** The getter [aborted] *)

Lemma canceled_rect' h (P : nat -> Prop) :
  (forall s, _aborted (deref h s) = true ->
             Forall (canceled h) (children (deref h s)) ->
             Forall P (children (deref h s)) -> P s) ->
  forall s, canceled h s -> P s.
Proof.
  intros step.
  refine (fix go s (H : canceled h s) {struct H} : P s :=
            match H with
            | canceled_intro _ s' Hf Hc =>
                step s' Hf Hc
                  ((fix all l (Hl : Forall (canceled h) l) {struct Hl} : Forall P l :=
                      match Hl with
                      | List.Forall_nil _ => List.Forall_nil _
                      | List.Forall_cons _ x l' Hx Hl' =>
                          List.Forall_cons _ x l' (go x Hx) (all l' Hl')
                      end) _ Hc)
            end).
Qed.

Lemma every_true f l :
  every f l = Some true <-> Forall (fun x => f x = Some true) l.
Proof.
  induction l as [|x r IH]; simpl.
  - split; [constructor | done].
  - destruct (f x) as [[|]|] eqn:E.
    + rewrite IH. split; [by constructor | by inversion 1].
    + split; [done | inversion 1; congruence].
    + split; [done | inversion 1; congruence].
Qed.

Lemma every_false f l :
  every f l = Some false -> exists x, x ∈ l /\ f x = Some false.
Proof.
  induction l as [|x r IH]; simpl; [done|].
  destruct (f x) as [[|]|] eqn:E; try done.
  - intros H. destruct (IH H) as (y & Hy & Hf). exists y. split; [by right | done].
  - intros _. exists x. split; [by left | done].
Qed.

Lemma every_total f l :
  Forall (fun x => is_Some (f x)) l -> is_Some (every f l).
Proof.
  induction 1 as [|x r [b Hb] _ IH]; simpl; [by eexists|].
  rewrite Hb. destruct b; [done | by eexists].
Qed.

Lemma aborted_true n h s : aborted n h s = Some true -> canceled h s.
Proof.
  revert s. induction n as [|n IH]; intros s; simpl; [done|].
  destruct (_aborted (deref h s)) eqn:Hf; [|done].
  rewrite every_true. intros Hall. constructor; [done|].
  eapply Forall_impl; [exact Hall | auto].
Qed.

Lemma aborted_false n h s : aborted n h s = Some false -> ~ canceled h s.
Proof.
  revert s. induction n as [|n IH]; intros s; simpl; [done|].
  destruct (_aborted (deref h s)) eqn:Hf.
  - intros (c & Hc & Hfalse)%every_false Hs.
    inversion Hs as [s' _ Hall]; subst.
    rewrite Forall_forall in Hall. by eapply IH, Hall.
  - intros _ Hs. inversion Hs; congruence.
Qed.

Lemma aborted_total rk h n s :
  ranked rk h -> rk s < n -> is_Some (aborted n h s).
Proof.
  intros Hrk. revert s. induction n as [|n IH]; intros s Hlt; [lia|]. simpl.
  destruct (_aborted (deref h s)); [|by eexists].
  apply every_total, Forall_forall. intros c Hc.
  apply IH. specialize (Hrk s c Hc). lia.
Qed.

Lemma aborted_flag_false n h s :
  _aborted (deref h s) = false -> 0 < n -> aborted n h s = Some false.
Proof. intros Hf Hn. destruct n as [|n]; [lia|]. simpl. by rewrite Hf. Qed.

Lemma aborted_canceled rk h n s :
  ranked rk h -> rk s < n -> canceled h s -> aborted n h s = Some true.
Proof.
  intros Hrk Hlt Hc. destruct (aborted_total rk h n s Hrk Hlt) as [[|] Hb]; [done|].
  by apply aborted_false in Hb.
Qed.

Lemma aborted_not_canceled rk h n s :
  ranked rk h -> rk s < n -> ~ canceled h s -> aborted n h s = Some false.
Proof.
  intros Hrk Hlt Hc. destruct (aborted_total rk h n s Hrk Hlt) as [[|] Hb]; [|done].
  by apply aborted_true in Hb.
Qed.

(** ** Stores that evolve *)

Lemma evolves_refl h : evolves h h.
Proof. intros t. auto. Qed.

Lemma evolves_trans h1 h2 h3 : evolves h1 h2 -> evolves h2 h3 -> evolves h1 h3.
Proof.
  intros H12 H23 t.
  destruct (H12 t) as (Hc & He & Hf & Ho), (H23 t) as (Hc' & He' & Hf' & Ho').
  repeat split; [congruence | congruence | auto |].
  destruct Ho' as [Ho'|Ho']; [rewrite Ho'; exact Ho | by right].
Qed.

Lemma evolves_ranked rk h h' : evolves h h' -> ranked rk h -> ranked rk h'.
Proof.
  intros Hev Hrk s c Hc. apply Hrk.
  destruct (Hev s) as (Heq & _). by rewrite <- Heq.
Qed.

Lemma evolves_canceled h h' s : evolves h h' -> canceled h s -> canceled h' s.
Proof.
  intros Hev Hc. induction Hc as [s Hf _ IH] using canceled_rect'.
  destruct (Hev s) as (Hch & _ & Hfl & _).
  constructor; [auto | by rewrite Hch].
Qed.

Lemma evolves_quiet_aborter op_abort listener_body h h' s :
  evolves h h' ->
  quiet_aborter op_abort listener_body (deref h s) ->
  quiet_aborter op_abort listener_body (deref h' s).
Proof.
  intros Hev [Hops Hls]. destruct (Hev s) as (_ & He & _ & Ho).
  split; [|by rewrite He].
  destruct Ho as [-> | ->]; [done | constructor].
Qed.

Lemma evolves_quiet op_abort listener_body h h' :
  evolves h h' -> quiet op_abort listener_body h -> quiet op_abort listener_body h'.
Proof. intros Hev Hq s. by eapply evolves_quiet_aborter. Qed.

Lemma evolves_quiet_below op_abort listener_body rk b h h' :
  evolves h h' ->
  quiet_below op_abort listener_body rk b h ->
  quiet_below op_abort listener_body rk b h'.
Proof. intros Hev Hq s Hs. eapply evolves_quiet_aborter; [done | by apply Hq]. Qed.

Lemma quiet_below_le op_abort listener_body rk b b' h :
  b' <= b ->
  quiet_below op_abort listener_body rk b h ->
  quiet_below op_abort listener_body rk b' h.
Proof. intros Hle Hq s Hs. apply Hq. lia. Qed.

Lemma quiet_quiet_below op_abort listener_body rk b h :
  quiet op_abort listener_body h -> quiet_below op_abort listener_body rk b h.
Proof. intros Hq s _. apply Hq. Qed.

Lemma evolves_update_flag h s :
  evolves h (set_aborted s true h).
Proof.
  intros t. unfold set_aborted. destruct (decide (s = t)) as [->|Hne].
  - rewrite deref_update_eq. simpl. auto.
  - rewrite deref_update_ne by done. auto.
Qed.

Lemma evolves_update_collections h s :
  evolves h (update s (set_collections []) h).
Proof.
  intros t. destruct (decide (s = t)) as [->|Hne].
  - rewrite deref_update_eq. simpl. auto.
  - rewrite deref_update_ne by done. auto.
Qed.

(** ** Passes with well-behaved callbacks *)

Lemma and_then_Done r k st' :
  and_then r k = Done st' -> exists st1, r = Done st1 /\ k st1 = Done st'.
Proof. destruct r as [st1| |]; simpl; [eauto | done | done]. Qed.

Section QuietPass.

Variable op_abort : nat -> list action.
Variable listener_body : nat -> list action.

Local Abbreviation abort' := (abort op_abort listener_body).
Local Abbreviation emit' := (emit listener_body).
Local Abbreviation drain' := (drain op_abort).
Local Abbreviation quiet' := (quiet op_abort listener_body).
Local Abbreviation quiet_below' := (quiet_below op_abort listener_body).

Lemma state_eta st : {| heap := heap st; trace := trace st |} = st.
Proof. by destruct st. Qed.

Lemma listeners_quiet call s k ls st :
  Forall (fun l => listener_body l = []) ls ->
  seq_each (fun l st' => run call (listener_body l) (log (EvListener s k l) st')) ls st
  = Done {| heap := heap st; trace := trace st ++ map (EvListener s k) ls |}.
Proof.
  intros Hq. revert st. induction Hq as [|l ls Hl _ IH]; intros st; simpl.
  - by rewrite app_nil_r, state_eta.
  - rewrite Hl. simpl. rewrite IH. simpl. by rewrite <- app_assoc.
Qed.

Lemma emit_quiet call s k st :
  Forall (fun l => listener_body l = []) (Mitt.get (emitter (deref (heap st) s)) k) ->
  emit' call s k st
  = Done {| heap := heap st;
            trace := trace st ++ EvEmit s k
                       :: map (EvListener s k) (Mitt.get (emitter (deref (heap st) s)) k) |}.
Proof.
  intros Hq. unfold emit. rewrite listeners_quiet by done.
  simpl. by rewrite <- app_assoc.
Qed.

Lemma set_collections_id a : collections a = [] -> set_collections [] a = a.
Proof. destruct a. simpl. by intros ->. Qed.

Lemma update_update s f g h :
  (forall a, g (f a) = g a) -> update s g (update s f h) = update s g h.
Proof.
  intros Hgf. unfold update. by rewrite deref_insert_eq, insert_insert_eq, Hgf.
Qed.

Lemma drain_quiet call s cs : forall n st,
  collections (deref (heap st) s) = cs ->
  Forall (fun o => op_abort o = []) cs ->
  length cs < n ->
  drain' call n s st
  = Done {| heap := drained s (heap st); trace := trace st ++ map (EvOp s) cs |}.
Proof.
  induction cs as [|o cs IH]; intros n st Hcs Hq Hlen;
    (destruct n as [|n]; [simpl in Hlen; lia|]); simpl; unfold drained; rewrite Hcs.
  - by rewrite app_nil_r, state_eta.
  - inversion Hq as [|? ? Ho Hq']; subst. rewrite Ho. simpl.
    rewrite (IH n); [| by simpl; rewrite deref_update_eq | done | simpl in Hlen; lia].
    simpl. rewrite <- app_assoc. simpl. f_equal. f_equal.
    unfold drained. rewrite deref_update_eq. simpl.
    destruct cs; [done|]. by apply update_update.
Qed.

Lemma evolves_drained h s : evolves h (drained s h).
Proof.
  unfold drained. destruct (collections (deref h s));
    [apply evolves_refl | apply evolves_update_collections].
Qed.

Lemma drained_collections h s : collections (deref (drained s h) s) = [].
Proof.
  unfold drained. destruct (collections (deref h s)) eqn:E; [done|].
  by rewrite deref_update_eq.
Qed.

Lemma children_quiet rk b :
  (forall c st, rk c < b -> ranked rk (heap st) -> quiet_below' rk b (heap st) ->
     exists st' n0, (forall n, n0 <= n -> abort' n c st = Done st')
                    /\ pass_ok rk c st st') ->
  forall cs st,
    Forall (fun c => rk c < b) cs -> ranked rk (heap st) ->
    quiet_below' rk b (heap st) ->
    exists st' n0,
      (forall n, n0 <= n -> seq_each (abort' n) cs st = Done st')
      /\ evolves (heap st) (heap st')
      /\ Forall (canceled (heap st')) cs
      /\ exists tr', trace st' = trace st ++ tr'
                     /\ Forall (fun e => rk (ev_scope e) < b) tr'.
Proof.
  intros IH cs. induction cs as [|c cs IHcs]; intros st Hlt Hrk Hq.
  - exists st, 0. split; [done|].
    split; [apply evolves_refl|]. split; [constructor|].
    exists []. by rewrite app_nil_r.
  - inversion Hlt as [|? ? Hc Hcs]; subst.
    destruct (IH c st Hc Hrk Hq)
      as (st1 & n1 & Hrun1 & Hev1 & Hcan1 & tr1 & Htr1 & Hb1 & _).
    destruct (IHcs st1 Hcs) as (st2 & n2 & Hrun2 & Hev2 & Hcan2 & tr2 & Htr2 & Hb2).
    { by eapply evolves_ranked. }
    { by eapply evolves_quiet_below. }
    exists st2, (Nat.max n1 n2). split.
    { intros n Hn. simpl. rewrite Hrun1 by lia. simpl. apply Hrun2. lia. }
    split; [by eapply evolves_trans|].
    split.
    { constructor; [by eapply evolves_canceled | done]. }
    exists (tr1 ++ tr2). split.
    { rewrite Htr2, Htr1. by rewrite <- app_assoc. }
    apply Forall_app. split; [|done].
    eapply Forall_impl; [exact Hb1|]. simpl. intros e He. lia.
Qed.

Lemma abort_noop n s st :
  aborted n (heap st) s = Some true -> abort' (S n) s st = Done st.
Proof. intros H. simpl. by rewrite H. Qed.

Lemma pass_trace_bound rk a s mid :
  Forall (fun e => rk (ev_scope e) < rk s) mid ->
  Forall (fun e => rk (ev_scope e) <= rk s) (pass_trace a s mid).
Proof.
  intros Hmid. unfold pass_trace.
  constructor; [done|]. rewrite !Forall_app. repeat split.
  - apply Forall_forall. intros e (l & -> & _)%list_elem_of_fmap. done.
  - apply Forall_forall. intros e (l & -> & _)%list_elem_of_fmap. done.
  - eapply Forall_impl; [exact Hmid|]. simpl. intros; lia.
  - constructor; [done|].
    apply Forall_forall. intros e (l & -> & _)%list_elem_of_fmap. done.
Qed.

Lemma abort_quiet rk : forall m s st,
  rk s = m -> ranked rk (heap st) -> quiet_below' rk (S m) (heap st) ->
  exists st' n0, (forall n, n0 <= n -> abort' n s st = Done st')
                 /\ pass_ok rk s st st'.
Proof.
  induction m as [m IH] using lt_wf_ind. intros s st Hm Hrk Hq. subst m.
  destruct (aborted_total rk (heap st) (S (rk s)) s Hrk (le_n _)) as [[|] Hb].
  - (* the guard holds *)
    pose proof (aborted_true _ _ _ Hb) as Hcan.
    exists st, (S (S (rk s))). split.
    + intros n Hn. destruct n as [|n]; [lia|].
      apply abort_noop. eapply aborted_canceled; [done | lia | done].
    + split; [apply evolves_refl|]. split; [done|].
      exists []. rewrite app_nil_r.
      split; [done|]. split; [constructor|]. split; [done | by intros []].
  - (* a full pass *)
    pose proof (aborted_false _ _ _ Hb) as Hncan.
    destruct (Hq s (le_n _)) as [Hops Hls].
    set (st1 := {| heap := heap st;
                   trace := trace st ++ EvEmit s Abort
                     :: map (EvListener s Abort)
                          (Mitt.get (emitter (deref (heap st) s)) Abort) |}).
    set (st2 := {| heap := drained s (heap st);
                   trace := trace st1 ++ map (EvOp s) (collections (deref (heap st) s)) |}).
    pose proof (evolves_drained (heap st) s) as Hev2.
    assert (Hch2 : children (deref (heap st2) s) = children (deref (heap st) s)).
    { simpl. by destruct (Hev2 s) as (-> & _). }
    destruct (children_quiet rk (rk s)) with (cs := children (deref (heap st2) s)) (st := st2)
      as (st3 & n3 & Hrun3 & Hev3 & Hcan3 & mid & Hmid & Hbmid).
    { intros c stc Hc Hrkc Hqc. apply (IH (rk c)); [done | done | done |].
      eapply quiet_below_le; [|exact Hqc]. lia. }
    { rewrite Hch2. apply Forall_forall. intros c Hc. by apply Hrk. }
    { simpl. by eapply evolves_ranked. }
    { simpl. eapply evolves_quiet_below; [done|].
      eapply quiet_below_le; [|exact Hq]. lia. }
    pose proof (evolves_trans _ _ _ Hev2 Hev3) as Hev13.
    pose proof (evolves_trans _ _ _ Hev13 (evolves_update_flag (heap st3) s)) as Hev4.
    assert (Hem4 : emitter (deref (set_aborted s true (heap st3)) s)
                   = emitter (deref (heap st) s)).
    { by destruct (Hev4 s) as (_ & -> & _). }
    set (st' := {| heap := set_aborted s true (heap st3);
                   trace := trace st3 ++ EvEmit s Aborted
                     :: map (EvListener s Aborted)
                          (Mitt.get (emitter (deref (heap st) s)) Aborted) |}).
    exists st', (S (Nat.max (S (rk s))
                    (Nat.max (S (length (collections (deref (heap st) s)))) n3))).
    split.
    + intros n Hn. destruct n as [|n]; [lia|]. simpl.
      rewrite (aborted_not_canceled rk) by (done || lia).
      rewrite emit_quiet by apply Hls. fold st1. simpl.
      rewrite (drain_quiet _ s (collections (deref (heap st) s))) by (done || lia).
      fold st2. simpl.
      rewrite Hrun3 by lia. simpl.
      rewrite emit_quiet; simpl; rewrite Hem4; [done | exact (Hls Aborted)].
    + split; [done|]. split.
      { constructor.
        - unfold st', set_aborted. simpl. by rewrite deref_update_eq.
        - destruct (Hev4 s) as (Hch4 & _). simpl. rewrite Hch4, <- Hch2.
          eapply Forall_impl; [exact Hcan3|]. simpl. intros c.
          apply evolves_canceled, evolves_update_flag. }
      exists (pass_trace (deref (heap st) s) s mid).
      split.
      { unfold st', pass_trace. simpl. rewrite Hmid. simpl.
        rewrite <- !app_assoc. simpl. by rewrite <- ?app_assoc. }
      split; [by apply pass_trace_bound|].
      split; [done|]. intros _. split; [|by exists mid].
      unfold st', set_aborted. simpl. rewrite deref_update_eq. simpl.
      destruct (Hev3 s) as (_ & _ & _ & [-> | ->]); [|done].
      simpl. apply drained_collections.
Qed.

Lemma drain_quiet_short call s : forall n st,
  Forall (fun o => op_abort o = []) (collections (deref (heap st) s)) ->
  n <= length (collections (deref (heap st) s)) ->
  drain' call n s st = OutOfFuel.
Proof.
  induction n as [|n IH]; intros st Hq Hlen; simpl; [done|].
  destruct (collections (deref (heap st) s)) as [|o cs] eqn:Hcs; [simpl in Hlen; lia|].
  inversion Hq as [|? ? Ho Hq']; subst. rewrite Ho. simpl.
  apply IH; simpl; rewrite deref_update_eq; simpl; [done | simpl in Hlen; lia].
Qed.

Lemma aborts_collected_refl st : aborts_collected st st.
Proof.
  split; [apply evolves_refl|]. exists []. rewrite app_nil_r. split; [done|].
  by intros t x ?%elem_of_nil.
Qed.

Lemma aborts_collected_trans st1 st2 st3 :
  aborts_collected st1 st2 -> aborts_collected st2 st3 -> aborts_collected st1 st3.
Proof.
  intros (Hev12 & tr12 & Ht12 & H12) (Hev23 & tr23 & Ht23 & H23).
  split; [by eapply evolves_trans|].
  exists (tr12 ++ tr23). split; [by rewrite Ht23, Ht12, <- app_assoc|].
  intros t x [Hin|Hin]%elem_of_app; [by apply H12|].
  specialize (H23 t x Hin).
  destruct (Hev12 t) as (_ & _ & _ & [E|E]); rewrite E in H23; [done|].
  by apply elem_of_nil in H23.
Qed.

Lemma listener_not_op s k ls t x :
  EvOp t x ∉ EvEmit s k :: map (EvListener s k) ls.
Proof.
  intros [E|(l & E & _)%list_elem_of_fmap]%elem_of_cons; discriminate.
Qed.

(** With well-behaved callbacks, a call that returns has aborted only
    operations that were collected when it started. *)
Lemma abort_quiet_collected n : forall s st st',
  quiet' (heap st) -> abort' n s st = Done st' -> aborts_collected st st'.
Proof.
  induction n as [|n IH]; intros s st st' Hq Hrun; simpl in Hrun; [done|].
  destruct (aborted n (heap st) s) as [[|]|]; [| |done].
  { injection Hrun as <-. apply aborts_collected_refl. }
  destruct (Hq s) as [Hops Hls].
  rewrite emit_quiet in Hrun by apply Hls. cbn [and_then] in Hrun.
  destruct (decide (length (collections (deref (heap st) s)) < n)) as [Hlen|Hlen].
  2: { rewrite drain_quiet_short in Hrun; [done | done | simpl; lia]. }
  rewrite (drain_quiet _ s (collections (deref (heap st) s))) in Hrun by done.
  cbn [and_then heap trace] in Hrun.
  apply and_then_Done in Hrun as (st3 & Hch & Hrun).
  remember {| heap := drained s (heap st);
              trace := (trace st ++ EvEmit s Abort
                          :: map (EvListener s Abort)
                               (Mitt.get (emitter (deref (heap st) s)) Abort))
                       ++ map (EvOp s) (collections (deref (heap st) s)) |}
    as st2 eqn:Hst2.
  assert (H2 : aborts_collected st st2).
  { subst st2. split; [apply evolves_drained|]. eexists.
    split; [simpl; by rewrite <- app_assoc|].
    intros t x [Hin|(o & E & Hin)%list_elem_of_fmap]%elem_of_app.
    - by apply listener_not_op in Hin.
    - by injection E as -> ->. }
  assert (Hloop : forall cs sa sb,
            quiet' (heap sa) -> seq_each (abort' n) cs sa = Done sb ->
            aborts_collected sa sb).
  { induction cs as [|c cs IHcs]; intros sa sb Hqa Hcs; simpl in Hcs.
    - injection Hcs as <-. apply aborts_collected_refl.
    - apply and_then_Done in Hcs as (sc & Hc & Hcs).
      pose proof (IH c sa sc Hqa Hc) as Hac.
      eapply aborts_collected_trans; [exact Hac|].
      apply IHcs; [|done]. eapply evolves_quiet; [apply Hac | done]. }
  assert (H3 : aborts_collected st2 st3).
  { apply (Hloop _ _ _ (evolves_quiet _ _ _ _ (proj1 H2) Hq) Hch). }
  pose proof (aborts_collected_trans _ _ _ H2 H3) as H13.
  pose proof (evolves_trans _ _ _ (proj1 H13) (evolves_update_flag (heap st3) s)) as Hev4.
  rewrite emit_quiet in Hrun.
  2: { cbn [heap with_heap]. apply (evolves_quiet _ _ _ _ Hev4 Hq s). }
  injection Hrun as <-.
  eapply aborts_collected_trans; [exact H13|].
  split; [apply evolves_update_flag|]. eexists. split; [cbn [trace with_heap]; reflexivity|].
  intros t x Hin. by apply listener_not_op in Hin.
Qed.

End QuietPass.

(** ** [collect] *)

Lemma collect_deref s o h :
  deref (collect s o h) s
  = {| _aborted := false;
       children := children (deref h s);
       collections := if JsArray.includes (collections (deref h s)) o
                      then collections (deref h s)
                      else collections (deref h s) ++ [o];
       emitter := emitter (deref h s) |}.
Proof.
  unfold collect, set_aborted.
  destruct (JsArray.includes (collections (deref h s)) o); simpl.
  - by rewrite deref_update_eq.
  - by rewrite !deref_update_eq.
Qed.

Lemma collect_deref_ne s t o h : s <> t -> deref (collect s o h) t = deref h t.
Proof.
  intros Hne. unfold collect, set_aborted.
  destruct (JsArray.includes (collections (deref h s)) o); simpl;
    by rewrite !deref_update_ne.
Qed.

Lemma collect_children s t o h :
  children (deref (collect s o h) t) = children (deref h t).
Proof.
  destruct (decide (s = t)) as [->|Hne];
    [by rewrite collect_deref | by rewrite collect_deref_ne].
Qed.

Lemma collect_emitter s t o h :
  emitter (deref (collect s o h) t) = emitter (deref h t).
Proof.
  destruct (decide (s = t)) as [->|Hne];
    [by rewrite collect_deref | by rewrite collect_deref_ne].
Qed.

Lemma includes_true l x : JsArray.includes l x = true <-> x ∈ l.
Proof. unfold JsArray.includes. apply bool_decide_eq_true. Qed.

Lemma includes_false l x : JsArray.includes l x = false <-> x ∉ l.
Proof. unfold JsArray.includes. apply bool_decide_eq_false. Qed.

Lemma collect_ranked rk s o h : ranked rk h -> ranked rk (collect s o h).
Proof. intros Hrk t c. rewrite collect_children. apply Hrk. Qed.

Lemma collect_quiet_aborter op_abort listener_body s t o h :
  op_abort o = [] ->
  quiet_aborter op_abort listener_body (deref h t) ->
  quiet_aborter op_abort listener_body (deref (collect s o h) t).
Proof.
  intros Ho [Hops Hls]. split; [|by rewrite collect_emitter].
  destruct (decide (s = t)) as [->|Hne]; [|by rewrite collect_deref_ne].
  rewrite collect_deref. simpl.
  destruct (JsArray.includes _ _); [done|].
  apply Forall_app. split; [done | by constructor].
Qed.

Lemma collect_aborted_false n s o h : aborted (S n) (collect s o h) s = Some false.
Proof. simpl. by rewrite collect_deref. Qed.

(** ** Counting calls in a trace *)

Lemma count_occ_none (l : list event) e :
  e ∉ l -> count_occ event_eq_dec l e = 0.
Proof. rewrite list_elem_of_In. apply count_occ_not_In. Qed.

Lemma count_occ_lower rk s mid e :
  ev_scope e = s ->
  Forall (fun e' => rk (ev_scope e') < rk s) mid ->
  count_occ event_eq_dec mid e = 0.
Proof.
  intros He Hmid. apply count_occ_none. intros Hin.
  rewrite Forall_forall in Hmid. specialize (Hmid e Hin). rewrite He in Hmid. lia.
Qed.

Lemma count_occ_listeners s k ls e :
  (forall l, e <> EvListener s k l) ->
  count_occ event_eq_dec (map (EvListener s k) ls) e = 0.
Proof.
  intros Hne. apply count_occ_none. intros (l & -> & _)%list_elem_of_fmap.
  by eapply Hne.
Qed.

Lemma count_occ_ops_other s cs e :
  (forall o, e <> EvOp s o) ->
  count_occ event_eq_dec (map (EvOp s) cs) e = 0.
Proof.
  intros Hne. apply count_occ_none. intros (l & -> & _)%list_elem_of_fmap.
  by eapply Hne.
Qed.

Lemma count_occ_head (x : event) l e :
  count_occ event_eq_dec (x :: l) e
  = (if event_eq_dec x e then 1 else 0) + count_occ event_eq_dec l e.
Proof.
  destruct (event_eq_dec x e);
    [by rewrite count_occ_cons_eq | by rewrite count_occ_cons_neq].
Qed.

Lemma count_occ_ops s cs o :
  count_occ event_eq_dec (map (EvOp s) cs) (EvOp s o) = count_occ Nat.eq_dec cs o.
Proof.
  induction cs as [|x cs IH]; [done|].
  cbn [map]. rewrite count_occ_head, IH.
  destruct (event_eq_dec (EvOp s x) (EvOp s o)) as [E|E], (Nat.eq_dec x o) as [E'|E'].
  - by rewrite count_occ_cons_eq.
  - congruence.
  - congruence.
  - by rewrite count_occ_cons_neq.
Qed.

Lemma count_pass_emit rk a s mid k :
  Forall (fun e => rk (ev_scope e) < rk s) mid ->
  count_occ event_eq_dec (pass_trace a s mid) (EvEmit s k) = 1.
Proof.
  intros Hmid. unfold pass_trace.
  rewrite count_occ_head, !count_occ_app, count_occ_head.
  rewrite !count_occ_listeners, count_occ_ops_other by done.
  rewrite (count_occ_lower rk s) by done.
  destruct k; repeat case_match; try congruence; done.
Qed.

Lemma count_pass_op rk a s mid o :
  Forall (fun e => rk (ev_scope e) < rk s) mid ->
  count_occ event_eq_dec (pass_trace a s mid) (EvOp s o)
  = count_occ Nat.eq_dec (collections a) o.
Proof.
  intros Hmid. unfold pass_trace.
  rewrite count_occ_head, !count_occ_app, count_occ_head.
  rewrite !count_occ_listeners, count_occ_ops by done.
  rewrite (count_occ_lower rk s) by done.
  repeat case_match; try congruence. lia.
Qed.

(** ** Checking the hypotheses on a given store *)

Lemma ranked_check rk (h : gmap nat MagicAborter) :
  map_Forall (fun s a => Forall (fun c => rk c < rk s) (children a)) h ->
  ranked rk h.
Proof.
  intros Hall s c Hc.
  pose proof (deref_map_Forall _ h Hall (fun _ => List.Forall_nil _) s) as Hs.
  simpl in Hs. rewrite Forall_forall in Hs. by apply Hs.
Qed.

Lemma quiet_check op_abort listener_body (h : gmap nat MagicAborter) :
  map_Forall (fun _ a =>
    Forall (fun o => op_abort o = []) (collections a)
    /\ Forall (fun l => listener_body l = []) (Mitt.abort_handlers (emitter a))
    /\ Forall (fun l => listener_body l = []) (Mitt.aborted_handlers (emitter a))) h ->
  quiet op_abort listener_body h.
Proof.
  intros Hall s.
  pose proof (deref_map_Forall _ h Hall) as Hs. simpl in Hs.
  destruct (Hs ltac:(intros; repeat split; constructor) s) as (Ho & Ha & Hb).
  split; [done|]. by intros [].
Qed.

Lemma ex_heap_ranked : ranked ex_rank ex_heap.
Proof. apply ranked_check. apply (bool_decide_unpack _). by vm_compute. Qed.

Lemma ex_heap_quiet : quiet no_actions no_actions ex_heap.
Proof. apply quiet_check. apply (bool_decide_unpack _). by vm_compute. Qed.

(** ** One pass, with well-behaved callbacks everywhere *)

Section Passes.

Variable op_abort : nat -> list action.
Variable listener_body : nat -> list action.

Local Abbreviation abort' := (abort op_abort listener_body).
Local Abbreviation quiet' := (quiet op_abort listener_body).

Lemma abort_quiet_pass rk s st :
  ranked rk (heap st) -> quiet' (heap st) ->
  exists st' n0, (forall n, n0 <= n -> abort' n s st = Done st')
                 /\ pass_ok rk s st st'.
Proof.
  intros Hrk Hq. apply (abort_quiet op_abort listener_body rk (rk s)); [done | done |].
  by apply quiet_quiet_below.
Qed.

Lemma pass_ok_aborted rk s st st' :
  ranked rk (heap st) -> pass_ok rk s st st' ->
  forall m, rk s < m -> aborted m (heap st') s = Some true.
Proof.
  intros Hrk (Hev & Hcan & _) m Hm.
  eapply aborted_canceled; [by eapply evolves_ranked | done | done].
Qed.

Lemma pass_ok_emits rk s st st' m :
  pass_ok rk s st st' -> aborted m (heap st) s = Some false ->
  collections (deref (heap st') s) = []
  /\ exists tr', trace st' = trace st ++ tr'
       /\ count_occ event_eq_dec tr' (EvEmit s Abort) = 1
       /\ count_occ event_eq_dec tr' (EvEmit s Aborted) = 1.
Proof.
  intros (_ & _ & tr' & Htr & _ & _ & Hpass) Hb.
  destruct (Hpass (aborted_false _ _ _ Hb)) as (Hcs & mid & Hmid & ->).
  split; [done|]. exists (pass_trace (deref (heap st) s) s mid).
  split; [done|]. split; by eapply count_pass_emit.
Qed.

(** C1, amended.  On a hierarchy in which no listener and no operation
    raises or calls back into an aborter, [abort()] returns normally and
    the getter [aborted] is then true.  Called on an aborter that
    already reports aborted it changes nothing; otherwise [collections]
    is empty afterwards and ["abort"] and ["aborted"] have each been
    emitted exactly once by that pass. *)
Theorem abort_postcondition rk s st :
  ranked rk (heap st) -> quiet' (heap st) ->
  exists st' n0,
    (forall n, n0 <= n -> abort' n s st = Done st')
    /\ (forall m, rk s < m -> aborted m (heap st') s = Some true)
    /\ (forall m, aborted m (heap st) s = Some true -> st' = st)
    /\ (forall m, aborted m (heap st) s = Some false ->
          collections (deref (heap st') s) = []
          /\ exists tr', trace st' = trace st ++ tr'
               /\ count_occ event_eq_dec tr' (EvEmit s Abort) = 1
               /\ count_occ event_eq_dec tr' (EvEmit s Aborted) = 1).
Proof.
  intros Hrk Hq.
  destruct (abort_quiet_pass rk s st Hrk Hq) as (st' & n0 & Hrun & Hok).
  exists st', n0. split; [done|].
  split; [by eapply pass_ok_aborted|].
  split.
  - intros m Hb. destruct Hok as (_ & _ & tr' & _ & _ & Hsame & _).
    by eapply Hsame, aborted_true.
  - intros m Hb. by eapply pass_ok_emits.
Qed.

(** C4, amended.  On a hierarchy in which no listener and no operation
    raises or calls back into an aborter, a second [abort()] returns
    normally and leaves the store and the trace exactly as the first
    call left them, and the getter is true.  If the aborter already
    reported aborted before the first call, both calls change nothing
    and emit nothing; otherwise [collections] is empty and each event
    was emitted once in total. *)
Theorem abort_idempotent rk s st :
  ranked rk (heap st) -> quiet' (heap st) ->
  exists st' n0,
    (forall n, n0 <= n -> abort' n s st = Done st' /\ abort' n s st' = Done st')
    /\ (forall m, rk s < m -> aborted m (heap st') s = Some true)
    /\ (forall m, aborted m (heap st) s = Some true -> st' = st)
    /\ (forall m, aborted m (heap st) s = Some false ->
          collections (deref (heap st') s) = []
          /\ exists tr', trace st' = trace st ++ tr'
               /\ count_occ event_eq_dec tr' (EvEmit s Abort) = 1
               /\ count_occ event_eq_dec tr' (EvEmit s Aborted) = 1).
Proof.
  intros Hrk Hq.
  destruct (abort_quiet_pass rk s st Hrk Hq) as (st' & n0 & Hrun & Hok).
  pose proof (pass_ok_aborted rk s st st' Hrk Hok) as Hab.
  exists st', (Nat.max n0 (S (S (rk s)))). split.
  - intros n Hn. split; [apply Hrun; lia|].
    destruct n as [|n]; [lia|]. apply abort_noop, Hab. lia.
  - split; [done|]. split.
    + intros m Hb. destruct Hok as (_ & _ & tr' & _ & _ & Hsame & _).
      by eapply Hsame, aborted_true.
    + intros m Hb. by eapply pass_ok_emits.
Qed.

(** C5, amended.  On an aborter whose getter is true, [collect(op)]
    makes the getter false, whatever the callbacks are.  On an acyclic
    hierarchy in which no listener and no operation, [op] included,
    raises or calls back into an aborter, the next [abort()] returns,
    calls [op.abort] and makes the getter true again. *)
Theorem collect_rearms rk s o st m :
  aborted m (heap st) s = Some true ->
  (forall n, aborted (S n) (collect s o (heap st)) s = Some false)
  /\ (ranked rk (heap st) -> quiet' (heap st) -> op_abort o = [] ->
      exists st' n0,
        (forall n, n0 <= n -> abort' n s (with_heap (collect s o) st) = Done st')
        /\ (exists tr', trace st' = trace st ++ tr' /\ EvOp s o ∈ tr')
        /\ (forall n, rk s < n -> aborted n (heap st') s = Some true)).
Proof.
  intros _. split; [intros n; apply collect_aborted_false|]. intros Hrk Hq Ho.
  set (st1 := with_heap (collect s o) st).
  assert (Hrk1 : ranked rk (heap st1)) by by apply collect_ranked.
  assert (Hq1 : quiet' (heap st1)).
  { intros t. by apply collect_quiet_aborter. }
  destruct (abort_quiet_pass rk s st1 Hrk1 Hq1) as (st' & n0 & Hrun & Hok).
  exists st', n0. split; [done|].
  split; [|by eapply pass_ok_aborted].
  destruct Hok as (_ & _ & tr' & Htr & _ & _ & Hpass).
  destruct Hpass as (_ & mid & _ & ->).
  { apply (aborted_false 1). apply collect_aborted_false. }
  eexists. split; [exact Htr|].
  unfold pass_trace. right. rewrite !elem_of_app. right. left.
  apply list_elem_of_fmap. exists o. split; [done|].
  simpl. rewrite collect_deref. simpl.
  destruct (JsArray.includes _ _) eqn:E; [by apply includes_true|].
  apply elem_of_app. right. by left.
Qed.

Lemma count_occ_nat_none (l : list nat) x : x ∉ l -> count_occ Nat.eq_dec l x = 0.
Proof. rewrite list_elem_of_In. apply count_occ_not_In. Qed.

Lemma NoDup_count_occ_1 (l : list nat) x :
  NoDup l -> x ∈ l -> count_occ Nat.eq_dec l x = 1.
Proof.
  intros Hnd Hin. apply NoDup_ListNoDup in Hnd.
  rewrite (NoDup_count_occ Nat.eq_dec) in Hnd. specialize (Hnd x).
  apply list_elem_of_In, (count_occ_In Nat.eq_dec) in Hin. lia.
Qed.

(** C9, amended.  Collecting the same object twice on an aborter whose
    [collections] holds nothing twice leaves it once in [collections],
    whatever the callbacks are.  On an acyclic hierarchy in which no
    listener and no operation, the object included, raises or calls
    back into an aborter, the next [abort()] of the aborter returns, and
    in it the aborter calls the object's [abort] exactly once; any other
    call of the object's [abort] in that pass is made by an aborter that
    had collected the object itself. *)
Theorem collect_twice_aborts_once rk s o st :
  NoDup (collections (deref (heap st) s)) ->
  count_occ Nat.eq_dec (collections (deref (collect s o (collect s o (heap st))) s)) o = 1
  /\ (ranked rk (heap st) -> quiet' (heap st) -> op_abort o = [] ->
      exists st' n0,
        (forall n, n0 <= n ->
           abort' n s (with_heap (collect s o) (with_heap (collect s o) st)) = Done st')
        /\ exists tr', trace st' = trace st ++ tr'
             /\ count_occ event_eq_dec tr' (EvOp s o) = 1
             /\ forall t, EvOp t o ∈ tr' ->
                          t = s \/ o ∈ collections (deref (heap st) t)).
Proof.
  intros Hnd.
  assert (Hcount : count_occ Nat.eq_dec
            (collections (deref (collect s o (collect s o (heap st))) s)) o = 1).
  { rewrite !collect_deref. simpl.
    destruct (JsArray.includes (collections (deref (heap st) s)) o) eqn:E.
    - rewrite E. apply NoDup_count_occ_1; [done | by apply includes_true].
    - assert (JsArray.includes (collections (deref (heap st) s) ++ [o]) o = true) as ->.
      { apply includes_true, elem_of_app. right. by left. }
      rewrite count_occ_app, count_occ_nat_none by by apply includes_false.
      simpl. by destruct (Nat.eq_dec o o). }
  split; [done|]. intros Hrk Hq Ho.
  set (st2 := with_heap (collect s o) (with_heap (collect s o) st)).
  assert (Hrk2 : ranked rk (heap st2)) by by do 2 apply collect_ranked.
  assert (Hq2 : quiet' (heap st2)).
  { intros t. simpl. do 2 (apply collect_quiet_aborter; [done|]). apply Hq. }
  destruct (abort_quiet_pass rk s st2 Hrk2 Hq2)
    as (st' & n0 & Hrun & _ & _ & tr' & Htr & _ & _ & Hpass).
  exists st', n0. split; [done|].
  destruct Hpass as (_ & mid & Hmid & ->).
  { apply (aborted_false 1). apply collect_aborted_false. }
  eexists. split; [exact Htr|].
  split; [by rewrite (count_pass_op rk)|].
  intros t Hin.
  destruct (abort_quiet_collected op_abort listener_body n0 s st2 st' Hq2 (Hrun n0 (le_n _)))
    as (_ & tr2 & Htr2 & Hcol).
  rewrite Htr in Htr2. apply app_inv_head in Htr2. subst tr2.
  specialize (Hcol t o Hin).
  destruct (decide (t = s)) as [->|Hne]; [by left | right].
  unfold st2 in Hcol. simpl in Hcol. by rewrite !collect_deref_ne in Hcol.
Qed.

End Passes.

(** ** Passes in which one callback misbehaves *)

Section Scenarios.

Variable op_abort : nat -> list action.
Variable listener_body : nat -> list action.

Local Abbreviation abort' := (abort op_abort listener_body).
Local Abbreviation emit' := (emit listener_body).
Local Abbreviation drain' := (drain op_abort).
Local Abbreviation quiet_below' := (quiet_below op_abort listener_body).

Lemma abort_pass n s st :
  aborted n (heap st) s = Some false ->
  abort' (S n) s st
  = and_then (emit' (abort' n) s Abort st) (fun st1 =>
    and_then (drain' (abort' n) n s st1) (fun st2 =>
    and_then (seq_each (abort' n) (children (deref (heap st2) s)) st2) (fun st3 =>
    emit' (abort' n) s Aborted (with_heap (set_aborted s true) st3)))).
Proof. intros H. simpl. by rewrite H. Qed.

Lemma aborted_fuel_irrelevant rk h s n m b :
  ranked rk h -> rk s < m -> aborted n h s = Some b -> aborted m h s = Some b.
Proof.
  intros Hrk Hm Hb. destruct b.
  - eapply aborted_canceled; [done | done | by eapply aborted_true].
  - eapply aborted_not_canceled; [done | done | by eapply aborted_false].
Qed.

(** The passes of the children of [s], all of them well behaved. *)
Lemma children_pass rk s st :
  ranked rk (heap st) -> quiet_below' rk (rk s) (heap st) ->
  exists st' n0,
    (forall n, n0 <= n ->
       seq_each (abort' n) (children (deref (heap st) s)) st = Done st')
    /\ evolves (heap st) (heap st')
    /\ Forall (canceled (heap st')) (children (deref (heap st) s))
    /\ exists mid, trace st' = trace st ++ mid
                   /\ Forall (fun e => rk (ev_scope e) < rk s) mid.
Proof.
  intros Hrk Hq.
  apply (children_quiet op_abort listener_body rk (rk s)); [| |done|done].
  - intros c stc Hc Hrkc Hqc.
    apply (abort_quiet op_abort listener_body rk (rk c)); [done | done |].
    eapply quiet_below_le; [|exact Hqc]. lia.
  - apply Forall_forall. intros c Hc. by apply Hrk.
Qed.




Lemma only_changes_refl s h : only_changes s h h.
Proof. by repeat split. Qed.

Lemma only_changes_trans s h1 h2 h3 :
  only_changes s h1 h2 -> only_changes s h2 h3 -> only_changes s h1 h3.
Proof.
  intros (Ho & Hc & He) (Ho' & Hc' & He'). repeat split; [|congruence|congruence].
  intros t Hne. by rewrite Ho', Ho.
Qed.

Lemma only_changes_update s f h :
  (forall a, children (f a) = children a) ->
  (forall a, emitter (f a) = emitter a) ->
  only_changes s h (update s f h).
Proof.
  intros Hc He. repeat split.
  - intros t Hne. by rewrite deref_update_ne.
  - by rewrite deref_update_eq.
  - by rewrite deref_update_eq.
Qed.

Lemma only_changes_collect s o h : only_changes s h (collect s o h).
Proof.
  repeat split.
  - intros t Hne. by apply collect_deref_ne.
  - apply collect_children.
  - apply collect_emitter.
Qed.

Lemma only_changes_drained s h : only_changes s h (drained s h).
Proof.
  unfold drained. destruct (collections (deref h s));
    [apply only_changes_refl | by apply only_changes_update].
Qed.

Lemma only_changes_ranked rk s h h' :
  only_changes s h h' -> ranked rk h -> ranked rk h'.
Proof.
  intros (Ho & Hc & _) Hrk t c. destruct (decide (s = t)) as [->|Hne].
  - rewrite Hc. apply Hrk.
  - rewrite Ho by done. apply Hrk.
Qed.

Lemma only_changes_quiet_below rk s h h' :
  only_changes s h h' -> quiet_below' rk (rk s) h -> quiet_below' rk (rk s) h'.
Proof.
  intros (Ho & _) Hq t Ht. rewrite Ho; [by apply Hq|]. intros ->. lia.
Qed.

(** The end of a pass of [s] whose operation list has been drained:
    the passes of the children, the flag, the ["aborted"] event. *)
Lemma pass_tail rk s st :
  ranked rk (heap st) -> quiet_below' rk (rk s) (heap st) ->
  Forall (fun l => listener_body l = [])
    (Mitt.get (emitter (deref (heap st) s)) Aborted) ->
  collections (deref (heap st) s) = [] ->
  exists st' n0,
    (forall n, n0 <= n ->
       and_then (seq_each (abort' n) (children (deref (heap st) s)) st) (fun st3 =>
         emit' (abort' n) s Aborted (with_heap (set_aborted s true) st3)) = Done st')
    /\ collections (deref (heap st') s) = []
    /\ canceled (heap st') s
    /\ exists mid,
         Forall (fun e => rk (ev_scope e) < rk s) mid
         /\ trace st' = trace st ++ mid ++ EvEmit s Aborted
               :: map (EvListener s Aborted)
                    (Mitt.get (emitter (deref (heap st) s)) Aborted).
Proof.
  intros Hrk Hq Hls Hcs.
  destruct (children_pass rk s st Hrk Hq)
    as (st3 & n3 & Hrun3 & Hev3 & Hcan3 & mid & Hmid & Hbmid).
  pose proof (evolves_trans _ _ _ Hev3 (evolves_update_flag (heap st3) s)) as Hev4.
  destruct (Hev4 s) as (Hch4 & Hem4 & _ & Hcs4).
  eexists _, n3. split.
  { intros n Hn. rewrite Hrun3 by done. simpl.
    rewrite emit_quiet; simpl; rewrite Hem4; [reflexivity | done]. }
  simpl. split; [destruct Hcs4 as [-> | ->]; done|].
  split.
  { constructor.
    - unfold set_aborted. by rewrite deref_update_eq.
    - rewrite Hch4. eapply Forall_impl; [exact Hcan3|]. simpl. intros c.
      apply evolves_canceled, evolves_update_flag. }
  exists mid. split; [done|]. by rewrite Hmid, <- app_assoc.
Qed.

(** A pass whose ["abort"] event and drain loop are known to return. *)
Lemma abort_compose rk s st st1 st2 m k :
  ranked rk (heap st) ->
  aborted m (heap st) s = Some false ->
  (forall call, emit' call s Abort st = Done st1) ->
  (forall call n, k <= n -> drain' call n s st1 = Done st2) ->
  ranked rk (heap st2) -> quiet_below' rk (rk s) (heap st2) ->
  Forall (fun l => listener_body l = [])
    (Mitt.get (emitter (deref (heap st2) s)) Aborted) ->
  collections (deref (heap st2) s) = [] ->
  exists st' n0,
    (forall n, n0 <= n -> abort' n s st = Done st')
    /\ collections (deref (heap st') s) = []
    /\ canceled (heap st') s
    /\ exists mid,
         Forall (fun e => rk (ev_scope e) < rk s) mid
         /\ trace st' = trace st2 ++ mid ++ EvEmit s Aborted
               :: map (EvListener s Aborted)
                    (Mitt.get (emitter (deref (heap st2) s)) Aborted).
Proof.
  intros Hrk Hb Hemit Hdrain Hrk2 Hq2 Hls2 Hcs2.
  destruct (pass_tail rk s st2 Hrk2 Hq2 Hls2 Hcs2) as (st' & n0 & Hrun & Hpost).
  exists st', (S (Nat.max (S (rk s)) (Nat.max k n0))). split; [|done].
  intros n Hn. destruct n as [|n]; [lia|].
  rewrite abort_pass by (eapply aborted_fuel_irrelevant; [done | lia | done]).
  rewrite Hemit. simpl. rewrite Hdrain by lia. simpl. apply Hrun. lia.
Qed.

Lemma seq_each_app {A} (f : A -> state -> outcome) l1 l2 st :
  seq_each f (l1 ++ l2) st = and_then (seq_each f l1 st) (seq_each f l2).
Proof.
  revert st. induction l1 as [|x l1 IH]; intros st; simpl; [done|].
  destruct (f x st); simpl; auto.
Qed.

Lemma emit_register call s k pre l post o st :
  Mitt.get (emitter (deref (heap st) s)) k = pre ++ l :: post ->
  Forall (fun l => listener_body l = []) (pre ++ post) ->
  listener_body l = [Collect s o] ->
  emit' call s k st
  = Done {| heap := collect s o (heap st);
            trace := trace st ++ EvEmit s k :: map (EvListener s k) (pre ++ l :: post) |}.
Proof.
  intros Hls [Hpre Hpost]%Forall_app Hl. unfold emit. rewrite Hls.
  rewrite seq_each_app, listeners_quiet by done. simpl.
  rewrite Hl. simpl. rewrite listeners_quiet by done. simpl.
  rewrite map_app. simpl. by rewrite <- !app_assoc.
Qed.

Lemma drain_register call s o o' post pre : forall n st,
  collections (deref (heap st) s) = pre ++ o :: post ->
  Forall (fun x => op_abort x = []) (pre ++ post) ->
  op_abort o = [Collect s o'] ->
  op_abort o' = [] ->
  o' ∉ post ->
  S (length (pre ++ o :: post)) < n ->
  drain' call n s st
  = Done {| heap := drained s (collect s o' (update s (set_collections post) (heap st)));
            trace := trace st ++ map (EvOp s) (pre ++ o :: post ++ [o']) |}.
Proof.
  induction pre as [|x pre IH]; intros n st Hcs Hq Ho Ho' Hnew Hlen;
    (destruct n as [|n]; [simpl in Hlen; lia|]); simpl; rewrite Hcs; simpl.
  - rewrite Ho. simpl.
    assert (Hcs' : collections (deref (collect s o'
                (update s (set_collections post) (heap st))) s) = post ++ [o']).
    { rewrite collect_deref, deref_update_eq. simpl.
      by rewrite (proj2 (includes_false _ _) Hnew). }
    rewrite (drain_quiet op_abort _ _ (post ++ [o'])).
    + simpl. by rewrite <- app_assoc.
    + done.
    + apply Forall_app. split; [done | by constructor].
    + simpl in Hlen. rewrite length_app. simpl. lia.
  - inversion Hq as [|? ? Hx Hq']; subst. rewrite Hx. simpl.
    rewrite (IH n); [| by simpl; rewrite deref_update_eq | done | done | done | done
                     | simpl in Hlen; lia].
    simpl. rewrite <- app_assoc. simpl. f_equal. f_equal.
    by rewrite update_update.
Qed.



(** With all other callbacks well behaved, a pass in which an ["abort"]
    listener or the [abort] of an operation being drained collects an
    operation returns: the collected operation is drained after the
    operations collected before it and before ["aborted"] is emitted,
    and [collections] is empty when the call returns. *)
Lemma reentrant_collect_returns rk s o' st m :
  ranked rk (heap st) -> quiet_below' rk (rk s) (heap st) ->
  aborted m (heap st) s = Some false ->
  op_abort o' = [] ->
  Forall (fun l => listener_body l = [])
    (Mitt.get (emitter (deref (heap st) s)) Aborted) ->
  (forall pre l post,
     Mitt.get (emitter (deref (heap st) s)) Abort = pre ++ l :: post ->
     Forall (fun l => listener_body l = []) (pre ++ post) ->
     listener_body l = [Collect s o'] ->
     Forall (fun o => op_abort o = []) (collections (deref (heap st) s)) ->
     o' ∉ collections (deref (heap st) s) ->
     exists st' n0,
       (forall n, n0 <= n -> abort' n s st = Done st')
       /\ collections (deref (heap st') s) = []
       /\ exists mid,
            Forall (fun e => rk (ev_scope e) < rk s) mid
            /\ trace st'
               = trace st ++ EvEmit s Abort
                   :: map (EvListener s Abort) (pre ++ l :: post)
                   ++ map (EvOp s) (collections (deref (heap st) s) ++ [o'])
                   ++ mid
                   ++ EvEmit s Aborted
                   :: map (EvListener s Aborted)
                        (Mitt.get (emitter (deref (heap st) s)) Aborted))
  /\ (forall pre o post,
       Forall (fun l => listener_body l = [])
         (Mitt.get (emitter (deref (heap st) s)) Abort) ->
       collections (deref (heap st) s) = pre ++ o :: post ->
       Forall (fun x => op_abort x = []) (pre ++ post) ->
       op_abort o = [Collect s o'] ->
       o' ∉ post ->
       exists st' n0,
         (forall n, n0 <= n -> abort' n s st = Done st')
         /\ collections (deref (heap st') s) = []
         /\ exists mid,
              Forall (fun e => rk (ev_scope e) < rk s) mid
              /\ trace st'
                 = trace st ++ EvEmit s Abort
                     :: map (EvListener s Abort)
                          (Mitt.get (emitter (deref (heap st) s)) Abort)
                     ++ map (EvOp s) (pre ++ o :: post ++ [o'])
                     ++ mid
                     ++ EvEmit s Aborted
                     :: map (EvListener s Aborted)
                          (Mitt.get (emitter (deref (heap st) s)) Aborted)).
Proof.
  intros Hrk Hq Hb Ho' Hlb. split.
  - intros pre l post Hla Hquiet Hl Hops Hnew.
    pose proof (only_changes_trans _ _ _ _
                  (only_changes_collect s o' (heap st))
                  (only_changes_drained s _)) as Hoc.
    set (st1 := {| heap := collect s o' (heap st);
                   trace := trace st ++ EvEmit s Abort
                              :: map (EvListener s Abort) (pre ++ l :: post) |}).
    assert (Hcs1 : collections (deref (heap st1) s)
                   = collections (deref (heap st) s) ++ [o']).
    { unfold st1; cbn [heap]. rewrite collect_deref. cbn [collections].
      by rewrite (proj2 (includes_false _ _) Hnew). }
    assert (Hq1 : Forall (fun o => op_abort o = [])
                    (collections (deref (heap st) s) ++ [o'])).
    { apply Forall_app. split; [done | by constructor]. }
    destruct (abort_compose rk s st st1 _ m
                (S (length (collections (deref (heap st) s) ++ [o']))) Hrk Hb
                (fun call => emit_register call s Abort pre l post o' st Hla Hquiet Hl)
                (fun call n Hn => drain_quiet op_abort call s _ n st1 Hcs1 Hq1 Hn))
      as (st' & n0 & Hrun & Hcs & _ & mid & Hmid & Htr).
    + unfold st1; cbn [heap]. by eapply only_changes_ranked.
    + unfold st1; cbn [heap]. by eapply only_changes_quiet_below.
    + unfold st1; cbn [heap]. destruct Hoc as (_ & _ & ->). done.
    + unfold st1; cbn [heap]. apply drained_collections.
    + exists st', n0. split; [done|]. split; [done|]. exists mid. split; [done|].
      rewrite Htr. unfold st1. cbn [heap trace]. destruct Hoc as (_ & _ & ->).
      rewrite <- !app_assoc. cbn [app]. by rewrite <- ?app_assoc.
  - intros pre o post Hla Hcs Hquiet Ho Hnew.
    pose proof (only_changes_trans _ _ _ _
                  (only_changes_trans _ _ _ _
                     (only_changes_update s (set_collections post) (heap st)
                        (fun _ => eq_refl) (fun _ => eq_refl))
                     (only_changes_collect s o' _))
                  (only_changes_drained s _)) as Hoc.
    set (st1 := {| heap := heap st;
                   trace := trace st ++ EvEmit s Abort
                              :: map (EvListener s Abort)
                                   (Mitt.get (emitter (deref (heap st) s)) Abort) |}).
    destruct (abort_compose rk s st st1 _ m
                (S (S (length (pre ++ o :: post)))) Hrk Hb
                (fun call => emit_quiet listener_body call s Abort st Hla)
                (fun call n Hn => drain_register call s o o' post pre n st1
                   Hcs Hquiet Ho Ho' Hnew Hn))
      as (st' & n0 & Hrun & Hcs' & _ & mid & Hmid & Htr).
    + unfold st1; cbn [heap]. by eapply only_changes_ranked.
    + unfold st1; cbn [heap]. by eapply only_changes_quiet_below.
    + unfold st1; cbn [heap]. destruct Hoc as (_ & _ & ->). done.
    + unfold st1; cbn [heap]. apply drained_collections.
    + exists st', n0. split; [done|]. split; [done|]. exists mid. split; [done|].
      rewrite Htr. unfold st1. cbn [heap trace]. destruct Hoc as (_ & _ & ->).
      rewrite <- !app_assoc. cbn [app]. by rewrite <- ?app_assoc.
Qed.

End Scenarios.

(** ** [removeChildAborter] *)

Lemma indexOf_absent l x : x ∉ l -> JsArray.indexOf l x = (-1)%Z.
Proof.
  induction l as [|y l IH]; simpl; [done|].
  intros Hx. case_decide as E; [subst; set_solver|].
  rewrite IH by set_solver. done.
Qed.

Lemma splice_minus_one l : JsArray.splice l (-1) 1 = take (length l - 1) l.
Proof.
  unfold JsArray.splice. destruct l as [|x l]; [done|].
  change ((-1 <? 0)%Z) with true. cbv iota.
  replace (Z.max (Z.of_nat (length (x :: l)) + (-1)) 0)
    with (Z.of_nat (length (x :: l) - 1)) by (simpl; lia).
  replace (Z.min (Z.max 1 0) _) with 1%Z by (simpl; lia).
  rewrite Nat2Z.id.
  replace (Z.to_nat (Z.of_nat (length (x :: l) - 1) + 1)) with (length (x :: l))
    by (simpl; lia).
  by rewrite drop_all, app_nil_r.
Qed.

(** Removing an aborter that is not a child removes the last child. *)
Lemma removeChildAborter_absent s c h :
  c ∉ children (deref h s) ->
  children (deref (removeChildAborter s c h) s)
  = take (length (children (deref h s)) - 1) (children (deref h s)).
Proof.
  intros Hc. unfold removeChildAborter. rewrite deref_update_eq. simpl.
  by rewrite indexOf_absent, splice_minus_one.
Qed.

(** C2.  On an aborter with the children [1] and [2],
    [removeChildAborter] called with the aborter [3], which was never
    added, returns and leaves the children [1]: the call
    [splice(indexOf(child), 1)] is [splice(-1, 1)], which removes the
    last element. *)
Theorem removeChildAborter_absent_removes_last :
  let h := addChildAborter 0 2 (addChildAborter 0 1 ∅) in
  children (deref h 0) = [1; 2]
  /\ (3 ∉ children (deref h 0))
  /\ children (deref (removeChildAborter 0 3 h) 0) = [1].
Proof.
  assert (H : children (deref (addChildAborter 0 2 (addChildAborter 0 1 ∅)) 0) = [1; 2]).
  { unfold addChildAborter. rewrite !deref_update_eq. simpl. by rewrite deref_empty. }
  assert (H3 : 3 ∉ [1; 2]) by (rewrite !not_elem_of_cons; auto using not_elem_of_nil).
  simpl. split; [done|]. split; [by rewrite H|].
  rewrite removeChildAborter_absent; rewrite H; done.
Qed.

(** ** The getter and the flag *)

Section Getter.

Variable op_abort : nat -> list action.
Variable listener_body : nat -> list action.

(** C6.  The getter [aborted] returns the own flag conjoined with the
    getters of all children, recursively: it is true exactly when
    [_aborted] is set and every child reports aborted, hence never true
    while [_aborted] is false.  A parent whose flag is set, with one
    aborted and one not aborted child, reports false, and reports true
    once [abort()] has also run on the second child. *)
Theorem aborted_getter_composite rk st s :
  ranked rk (heap st) ->
  (exists b,
     (forall n, rk s < n -> aborted n (heap st) s = Some b)
     /\ (b = true <-> canceled (heap st) s)
     /\ (b = true <->
         _aborted (deref (heap st) s) = true
         /\ forall c, c ∈ children (deref (heap st) s) ->
              forall n, rk c < n -> aborted n (heap st) c = Some true))
  /\ (forall n, aborted n (heap st) s = Some true -> _aborted (deref (heap st) s) = true)
  /\ (forall c1 c2,
       quiet op_abort listener_body (heap st) ->
       children (deref (heap st) s) = [c1; c2] ->
       _aborted (deref (heap st) s) = true ->
       canceled (heap st) c1 -> ~ canceled (heap st) c2 ->
       (forall n, rk s < n -> aborted n (heap st) s = Some false)
       /\ exists st' n0,
            (forall n, n0 <= n -> abort op_abort listener_body n c2 st = Done st')
            /\ forall n, rk s < n -> aborted n (heap st') s = Some true).
Proof.
  intros Hrk. split; [|split].
  - destruct (aborted_total rk (heap st) (S (rk s)) s Hrk (le_n _)) as [b Hb].
    exists b. split; [|split].
    + intros n Hn. by eapply aborted_fuel_irrelevant.
    + destruct b; split; intros H; try done.
      * by eapply aborted_true.
      * by apply aborted_false in Hb.
    + destruct b.
      * split; [|done]. intros _. apply aborted_true in Hb.
        inversion Hb as [? Hf Hall]; subst. split; [done|].
        intros c Hc n Hn. eapply aborted_canceled; [done | done |].
        rewrite Forall_forall in Hall. by apply Hall.
      * split; [done|]. intros [Hf Hall]. apply aborted_false in Hb.
        destruct Hb. constructor; [done|]. apply Forall_forall. intros c Hc.
        eapply (aborted_true (S (rk c))). apply Hall; [done | lia].
  - intros n Hn. apply aborted_true in Hn. by inversion Hn.
  - intros c1 c2 Hq Hch Hf Hc1 Hc2. split.
    + intros n Hn. eapply aborted_not_canceled; [done | done |].
      intros Hs. inversion Hs as [? _ Hall]; subst. rewrite Hch in Hall.
      apply Hc2. by inversion Hall as [|? ? _ Hall']; inversion Hall'.
    + destruct (abort_quiet_pass op_abort listener_body rk c2 st Hrk Hq)
        as (st' & n0 & Hrun & Hev & Hcan & _).
      exists st', n0. split; [done|]. intros n Hn.
      eapply aborted_canceled; [by eapply evolves_ranked | done |].
      destruct (Hev s) as (Hch' & _ & Hfl & _).
      constructor; [auto|]. rewrite Hch', Hch.
      constructor; [by eapply evolves_canceled|].
      constructor; [done | constructor].
Qed.

End Getter.

(** C10.  On an aborter whose [_aborted] is true, [collect] of an
    object that is already in [collections] leaves [collections] as it
    is and still sets [_aborted] to false, so the getter [aborted]
    becomes false. *)
Theorem collect_duplicate_resets_flag s o h :
  _aborted (deref h s) = true ->
  o ∈ collections (deref h s) ->
  collections (deref (collect s o h) s) = collections (deref h s)
  /\ _aborted (deref (collect s o h) s) = false
  /\ forall n, aborted (S n) (collect s o h) s = Some false.
Proof.
  intros _ Hin. rewrite collect_deref. simpl.
  rewrite (proj2 (includes_true _ _) Hin).
  split; [done|]. split; [done|]. intros n. apply collect_aborted_false.
Qed.

(** ** Counterexamples and instances *)

Lemma quiet_below_check op_abort listener_body rk b (h : gmap nat MagicAborter) :
  map_Forall (fun t a =>
    rk t < b ->
    Forall (fun o => op_abort o = []) (collections a)
    /\ Forall (fun l => listener_body l = []) (Mitt.abort_handlers (emitter a))
    /\ Forall (fun l => listener_body l = []) (Mitt.aborted_handlers (emitter a))) h ->
  quiet_below op_abort listener_body rk b h.
Proof.
  intros Hall t Ht. unfold deref. destruct (h !! t) as [a|] eqn:E; simpl.
  - destruct (Hall t a E Ht) as (Ho & Ha & Hb). split; [done|]. by intros [].
  - split; [constructor|]. intros []; constructor.
Qed.

(** C1 fails as stated.  No callback raises, [abort()] returns
    normally, and yet afterwards the getter is false and [collections]
    holds an operation: the listener [11] of ["aborted"] collects the
    operation [7], which resets the flag after the pass has set it. *)
Lemma abort_postcondition_fails :
  (forall i, Throw ∉ no_actions i)
  /\ (forall i, Throw ∉ collecting 11 0 7 i)
  /\ exists st',
       (forall n, 5 <= n -> abort no_actions (collecting 11 0 7) n 0 ex_state = Done st')
       /\ (forall n, aborted (S n) (heap st') 0 = Some false)
       /\ collections (deref (heap st') 0) = [7].
Proof.
  split; [intros i; apply not_elem_of_nil|].
  split.
  { intros i. unfold collecting. case_decide; [|apply not_elem_of_nil].
    rewrite list_elem_of_singleton. discriminate. }
  eexists. split; [|split].
  - intros n Hn. do 5 (destruct n as [|n]; [lia|]). vm_compute. reflexivity.
  - intros n. reflexivity.
  - reflexivity.
Qed.


Lemma abort_postcondition_witness :
  ranked ex_rank (heap ex_state)
  /\ quiet no_actions no_actions (heap ex_state)
  /\ exists st' n0,
       (forall n, n0 <= n -> abort no_actions no_actions n 0 ex_state = Done st')
       /\ (forall m, ex_rank 0 < m -> aborted m (heap st') 0 = Some true)
       /\ (forall m, aborted m (heap ex_state) 0 = Some true -> st' = ex_state)
       /\ (forall m, aborted m (heap ex_state) 0 = Some false ->
             collections (deref (heap st') 0) = []
             /\ exists tr', trace st' = trace ex_state ++ tr'
                  /\ count_occ event_eq_dec tr' (EvEmit 0 Abort) = 1
                  /\ count_occ event_eq_dec tr' (EvEmit 0 Aborted) = 1).
Proof.
  split; [exact ex_heap_ranked|]. split; [exact ex_heap_quiet|].
  exact (abort_postcondition no_actions no_actions ex_rank 0 ex_state
           ex_heap_ranked ex_heap_quiet).
Defined.

Lemma abort_idempotent_witness :
  ranked ex_rank (heap ex_state)
  /\ quiet no_actions no_actions (heap ex_state)
  /\ exists st' n0,
       (forall n, n0 <= n ->
          abort no_actions no_actions n 0 ex_state = Done st'
          /\ abort no_actions no_actions n 0 st' = Done st')
       /\ (forall m, ex_rank 0 < m -> aborted m (heap st') 0 = Some true)
       /\ (forall m, aborted m (heap ex_state) 0 = Some true -> st' = ex_state)
       /\ (forall m, aborted m (heap ex_state) 0 = Some false ->
             collections (deref (heap st') 0) = []
             /\ exists tr', trace st' = trace ex_state ++ tr'
                  /\ count_occ event_eq_dec tr' (EvEmit 0 Abort) = 1
                  /\ count_occ event_eq_dec tr' (EvEmit 0 Aborted) = 1).
Proof.
  split; [exact ex_heap_ranked|]. split; [exact ex_heap_quiet|].
  exact (abort_idempotent no_actions no_actions ex_rank 0 ex_state
           ex_heap_ranked ex_heap_quiet).
Defined.

Lemma ex_done_ranked : ranked ex_rank (heap ex_done).
Proof. apply ranked_check. apply (bool_decide_unpack _). by vm_compute. Qed.

Lemma ex_done_quiet : quiet no_actions no_actions (heap ex_done).
Proof. apply quiet_check. apply (bool_decide_unpack _). by vm_compute. Qed.

Lemma collect_rearms_witness :
  aborted 1 (heap ex_done) 2 = Some true
  /\ (forall n, aborted (S n) (collect 2 6 (heap ex_done)) 2 = Some false)
  /\ exists st' n0,
       (forall n, n0 <= n ->
          abort no_actions no_actions n 2 (with_heap (collect 2 6) ex_done) = Done st')
       /\ (exists tr', trace st' = trace ex_done ++ tr' /\ EvOp 2 6 ∈ tr')
       /\ (forall n, ex_rank 2 < n -> aborted n (heap st') 2 = Some true).
Proof.
  split; [reflexivity|].
  destruct (collect_rearms no_actions no_actions ex_rank 2 6 ex_done 1 eq_refl)
    as [Hget Hnext].
  split; [exact Hget|].
  exact (Hnext ex_done_ranked ex_done_quiet eq_refl).
Defined.

Lemma collect_twice_aborts_once_witness :
  NoDup (collections (deref (heap ex_state) 0))
  /\ count_occ Nat.eq_dec
       (collections (deref (collect 0 9 (collect 0 9 (heap ex_state))) 0)) 9 = 1
  /\ exists st' n0,
       (forall n, n0 <= n ->
          abort no_actions no_actions n 0
            (with_heap (collect 0 9) (with_heap (collect 0 9) ex_state)) = Done st')
       /\ exists tr', trace st' = trace ex_state ++ tr'
            /\ count_occ event_eq_dec tr' (EvOp 0 9) = 1
            /\ forall t, EvOp t 9 ∈ tr' -> t = 0.
Proof.
  assert (Hnd : NoDup (collections (deref (heap ex_state) 0))).
  { apply (bool_decide_unpack _). by vm_compute. }
  split; [exact Hnd|].
  destruct (collect_twice_aborts_once no_actions no_actions ex_rank 0 9 ex_state Hnd)
    as [Hcount Hnext].
  split; [exact Hcount|].
  destruct (Hnext ex_heap_ranked ex_heap_quiet eq_refl)
    as (st' & n0 & Hrun & tr' & Htr & Hone & Hothers).
  exists st', n0. split; [done|]. exists tr'. split; [done|]. split; [done|].
  intros t Hin. destruct (Hothers t Hin) as [->|Hheld]; [done|].
  exfalso. revert Hheld.
  apply (deref_map_Forall (fun _ a => 9 ∉ collections a) ex_heap).
  - apply (bool_decide_unpack _). by vm_compute.
  - intros _. apply not_elem_of_nil.
Defined.



Lemma reentrant_collect_returns_example :
  (exists st' n0,
     (forall n, n0 <= n -> abort no_actions (collecting 10 0 7) n 0 ex_state = Done st')
     /\ collections (deref (heap st') 0) = []
     /\ exists mid,
          trace st'
          = [EvEmit 0 Abort; EvListener 0 Abort 10; EvOp 0 3; EvOp 0 4; EvOp 0 7]
              ++ mid ++ [EvEmit 0 Aborted; EvListener 0 Aborted 11])
  /\ (exists st' n0,
        (forall n, n0 <= n -> abort (collecting 3 0 7) no_actions n 0 ex_state = Done st')
        /\ collections (deref (heap st') 0) = []
        /\ exists mid,
             trace st'
             = [EvEmit 0 Abort; EvListener 0 Abort 10; EvOp 0 3; EvOp 0 4; EvOp 0 7]
                 ++ mid ++ [EvEmit 0 Aborted; EvListener 0 Aborted 11]).
Proof.
  split.
  - destruct (proj1 (reentrant_collect_returns no_actions (collecting 10 0 7)
                       ex_rank 0 7 ex_state 1 ex_heap_ranked
                       ltac:(apply quiet_below_check, (bool_decide_unpack _); by vm_compute)
                       eq_refl eq_refl
                       ltac:(vm_compute; repeat constructor))
                [] 10 [])
      as (st' & n0 & Hrun & Hcs & mid & _ & Htr).
    + reflexivity.
    + constructor.
    + reflexivity.
    + vm_compute. repeat constructor.
    + apply (bool_decide_unpack _). by vm_compute.
    + exists st', n0. split; [done|]. split; [done|]. exists mid. exact Htr.
  - destruct (proj2 (reentrant_collect_returns (collecting 3 0 7) no_actions
                       ex_rank 0 7 ex_state 1 ex_heap_ranked
                       ltac:(apply quiet_below_check, (bool_decide_unpack _); by vm_compute)
                       eq_refl eq_refl
                       ltac:(vm_compute; repeat constructor))
                [] 3 [4])
      as (st' & n0 & Hrun & Hcs & mid & _ & Htr).
    + vm_compute. repeat constructor.
    + reflexivity.
    + vm_compute. repeat constructor.
    + reflexivity.
    + apply (bool_decide_unpack _). by vm_compute.
    + exists st', n0. split; [done|]. split; [done|]. exists mid. exact Htr.
Defined.

Lemma ex_family_ranked : ranked ex_rank (heap ex_family).
Proof. apply ranked_check. apply (bool_decide_unpack _). by vm_compute. Qed.

Lemma ex_family_quiet : quiet no_actions no_actions (heap ex_family).
Proof. apply quiet_check. apply (bool_decide_unpack _). by vm_compute. Qed.

Lemma aborted_getter_composite_witness :
  ranked ex_rank (heap ex_family)
  /\ children (deref (heap ex_family) 0) = [1; 2]
  /\ _aborted (deref (heap ex_family) 0) = true
  /\ (forall n, ex_rank 0 < n -> aborted n (heap ex_family) 0 = Some false)
  /\ exists st' n0,
       (forall n, n0 <= n -> abort no_actions no_actions n 2 ex_family = Done st')
       /\ forall n, ex_rank 0 < n -> aborted n (heap st') 0 = Some true.
Proof.
  split; [exact ex_family_ranked|]. split; [reflexivity|]. split; [reflexivity|].
  exact (proj2 (proj2 (aborted_getter_composite no_actions no_actions ex_rank
                         ex_family 0 ex_family_ranked))
           1 2 ex_family_quiet eq_refl eq_refl
           (aborted_true 1 (heap ex_family) 1 eq_refl)
           (aborted_false 1 (heap ex_family) 2 eq_refl)).
Defined.

Lemma collect_duplicate_resets_flag_witness :
  let h := set_aborted 0 true (collect 0 3 ∅) in
  _aborted (deref h 0) = true
  /\ 3 ∈ collections (deref h 0)
  /\ collections (deref (collect 0 3 h) 0) = collections (deref h 0)
  /\ _aborted (deref (collect 0 3 h) 0) = false
  /\ forall n, aborted (S n) (collect 0 3 h) 0 = Some false.
Proof.
  assert (Hin : 3 ∈ collections (deref (set_aborted 0 true (collect 0 3 ∅)) 0)).
  { apply (bool_decide_unpack _). by vm_compute. }
  split; [reflexivity|]. split; [exact Hin|].
  exact (collect_duplicate_resets_flag 0 3 (set_aborted 0 true (collect 0 3 ∅))
           eq_refl Hin).
Defined.

(** ** Runs of the example programs *)

(** The scenario of the documentation: aborting the parent aborts its
    own operations, then the child and the child's operation, and both
    report aborted. *)
Example abort_parent_and_child :
  exists st',
    abort no_actions no_actions 5 0 ex_state = Done st'
    /\ trace st'
       = [EvEmit 0 Abort; EvListener 0 Abort 10; EvOp 0 3; EvOp 0 4;
          EvEmit 1 Abort; EvOp 1 5; EvEmit 1 Aborted;
          EvEmit 0 Aborted; EvListener 0 Aborted 11]
    /\ aborted 2 (heap st') 0 = Some true
    /\ aborted 1 (heap st') 1 = Some true.
Proof. eexists. split; [by vm_compute|]. by vm_compute. Qed.

(** A listener registered twice is called twice, and [off] removes one
    registration; [off] of a listener that is not registered changes
    nothing. *)
Example listener_twice :
  Mitt.get (emitter (deref (onAbort 0 10 (onAbort 0 10 ∅)) 0)) Abort = [10; 10]
  /\ Mitt.get (emitter (deref (off 0 Abort 10 (onAbort 0 10 (onAbort 0 10 ∅))) 0)) Abort
     = [10]
  /\ Mitt.get (emitter (deref (off 0 Abort 12 (onAbort 0 10 (onAbort 0 10 ∅))) 0)) Abort
     = [10; 10].
Proof. by vm_compute. Qed.

(** A listener that aborts its own aborter never returns: the guard of
    the nested call still reads [false]. *)
Example abort_from_listener_diverges :
  abort no_actions (fun l => [CallAbort 0]) 50 0
    {| heap := onAbort 0 10 ∅; trace := [] |} = OutOfFuel.
Proof. by vm_compute. Qed.

(** ** More on [addChildAborter] and [removeChildAborter] *)

Lemma indexOf_first pre c post :
  c ∉ pre -> JsArray.indexOf (pre ++ c :: post) c = Z.of_nat (length pre).
Proof.
  induction pre as [|y pre IH]; intros Hc; simpl.
  - by rewrite decide_True.
  - apply not_elem_of_cons in Hc as [Hne Hc].
    rewrite decide_False by congruence. rewrite IH by done.
    destruct (Z.ltb_spec (Z.of_nat (length pre)) 0); lia.
Qed.

Lemma splice_one_at pre (x : nat) post :
  JsArray.splice (pre ++ x :: post) (Z.of_nat (length pre)) 1 = pre ++ post.
Proof.
  unfold JsArray.splice. rewrite length_app. simpl.
  destruct (Z.ltb_spec (Z.of_nat (length pre)) 0) as [Hneg|_]; [lia|].
  rewrite Z.min_l by lia. rewrite Nat2Z.id.
  rewrite (Z.max_l 1 0) by lia. rewrite Z.min_l by lia.
  replace (Z.to_nat (Z.of_nat (length pre) + 1)) with (length pre + 1) by lia.
  rewrite take_app_length.
  rewrite drop_app_ge by lia.
  replace (length pre + 1 - length pre) with 1 by lia. done.
Qed.

Lemma removeChildAborter_present s c pre post h :
  children (deref h s) = pre ++ c :: post ->
  c ∉ pre ->
  deref (removeChildAborter s c h) s = set_children (pre ++ post) (deref h s).
Proof.
  intros Hch Hc. unfold removeChildAborter.
  rewrite deref_update_eq, Hch, indexOf_first by done.
  by rewrite splice_one_at.
Qed.

(** X1.  [removeChildAborter] of a child removes its first occurrence
    from the [children] array of the aborter and nothing else of it:
    the other children keep their order, later occurrences of the same
    child stay, and the other fields of the aborter are as before. *)
Theorem removeChildAborter_removes_first s c pre post h :
  children (deref h s) = pre ++ c :: post ->
  c ∉ pre ->
  children (deref (removeChildAborter s c h) s) = pre ++ post
  /\ _aborted (deref (removeChildAborter s c h) s) = _aborted (deref h s)
  /\ collections (deref (removeChildAborter s c h) s) = collections (deref h s)
  /\ emitter (deref (removeChildAborter s c h) s) = emitter (deref h s).
Proof.
  intros Hch Hc. by rewrite (removeChildAborter_present s c pre post h).
Qed.

(** X2.  [removeChildAborter] shortens a non-empty [children] array by
    exactly one element whether or not the argument is a child, and
    leaves an empty array empty. *)
Theorem removeChildAborter_length s c h :
  length (children (deref (removeChildAborter s c h) s))
  = length (children (deref h s)) - 1.
Proof.
  destruct (decide (c ∈ children (deref h s))) as [Hin|Hout].
  - apply list_elem_of_split_l in Hin as (pre & post & Hch & Hc).
    rewrite (removeChildAborter_present s c pre post h Hch Hc).
    simpl. rewrite Hch, !length_app. simpl. lia.
  - rewrite removeChildAborter_absent by done.
    rewrite length_take. lia.
Qed.

(** X3.  Adding an aborter that is not yet a child and removing it
    again restores every aborter of the store. *)
Theorem addChildAborter_removeChildAborter s c h :
  c ∉ children (deref h s) ->
  forall t, deref (removeChildAborter s c (addChildAborter s c h)) t = deref h t.
Proof.
  intros Hc t.
  assert (Hch : children (deref (addChildAborter s c h) s)
                = children (deref h s) ++ c :: []).
  { unfold addChildAborter. by rewrite deref_update_eq. }
  pose proof (removeChildAborter_present s c _ [] _ Hch Hc) as Hs.
  destruct (decide (s = t)) as [<-|Hne].
  - rewrite Hs. unfold addChildAborter. rewrite deref_update_eq, app_nil_r.
    by destruct (deref h s).
  - unfold removeChildAborter, addChildAborter. by rewrite !deref_update_ne.
Qed.

(** ** Calls that find nothing to do *)

Section Guard.

Variable op_abort : nat -> list action.
Variable listener_body : nat -> list action.

Local Abbreviation abort' := (abort op_abort listener_body).

Lemma children_noop rk n cs st :
  ranked rk (heap st) ->
  Forall (canceled (heap st)) cs ->
  Forall (fun c => S (rk c) < n) cs ->
  seq_each (abort' n) cs st = Done st.
Proof.
  intros Hrk Hcan Hlt. induction Hcan as [|c cs Hc _ IH]; simpl; [done|].
  inversion Hlt as [|? ? Hn Hlt']; subst.
  destruct n as [|n]; [lia|].
  rewrite abort_noop by (eapply aborted_canceled; [done | lia | done]).
  simpl. by apply IH.
Qed.

(** X4.  [abort()] on an aborter that has no listeners, has collected
    nothing and whose children (if any) all report aborted calls no
    callback at all: it emits ["abort"] and ["aborted"], sets
    [_aborted], and changes nothing else. *)
Theorem abort_nothing_collected rk s st :
  ranked rk (heap st) ->
  _aborted (deref (heap st) s) = false ->
  collections (deref (heap st) s) = [] ->
  emitter (deref (heap st) s) = Mitt.mitt ->
  Forall (canceled (heap st)) (children (deref (heap st) s)) ->
  forall n, rk s < n ->
    abort' (S n) s st
    = Done {| heap := set_aborted s true (heap st);
              trace := trace st ++ [EvEmit s Abort; EvEmit s Aborted] |}.
Proof.
  intros Hrk Hf Hcs Hem Hcan n Hn.
  rewrite abort_pass by (apply aborted_flag_false; [done | lia]).
  rewrite emit_quiet by (rewrite Hem; constructor).
  cbn [and_then].
  rewrite (drain_quiet op_abort _ s [])
    by (done || constructor || (simpl; lia)).
  cbn [and_then heap trace map]. unfold drained. rewrite Hcs.
  rewrite (children_noop rk); [| done | done |].
  2:{ apply Forall_forall. intros c Hc. specialize (Hrk s c Hc). lia. }
  cbn [and_then].
  rewrite emit_quiet;
    cbn [heap with_heap]; unfold set_aborted; rewrite deref_update_eq;
    cbn [emitter set__aborted]; rewrite Hem; [|constructor].
  unfold with_heap. cbn [trace].
  by rewrite app_nil_r, <- app_assoc.
Qed.

(** X5.  After the setter has put [true] into [_aborted] of an aborter
    whose children all report aborted, [abort()] returns at its guard:
    it emits nothing and aborts nothing, and the operations collected
    before stay in [collections]. *)
Theorem abort_after_setter rk s st :
  ranked rk (heap st) ->
  Forall (canceled (heap st)) (children (deref (heap st) s)) ->
  (forall n, rk s < n ->
     abort' (S n) s (with_heap (set_aborted s true) st)
     = Done (with_heap (set_aborted s true) st))
  /\ collections (deref (set_aborted s true (heap st)) s)
     = collections (deref (heap st) s).
Proof.
  intros Hrk Hcan. split.
  - intros n Hn. apply abort_noop. simpl.
    pose proof (evolves_update_flag (heap st) s) as Hev.
    eapply aborted_canceled; [by eapply evolves_ranked | done |].
    constructor.
    + unfold set_aborted. by rewrite deref_update_eq.
    + destruct (Hev s) as (-> & _).
      eapply Forall_impl; [exact Hcan|]. intros c. by apply evolves_canceled.
  - unfold set_aborted. by rewrite deref_update_eq.
Qed.

End Guard.

(** ** Invariants of every run *)

Section RunInvariant.

Variable op_abort : nat -> list action.
Variable listener_body : nat -> list action.

(** A relation between the state before and the state after that each
    step of a pass respects. *)
Variable R : state -> state -> Prop.
Hypothesis R_refl : forall st, R st st.
Hypothesis R_trans : forall st1 st2 st3, R st1 st2 -> R st2 st3 -> R st1 st3.
Hypothesis R_emit : forall st s k, R st (log (EvEmit s k) st).
Hypothesis R_listener : forall st s k l, R st (log (EvListener s k l) st).
Hypothesis R_shift : forall st s o rest,
  collections (deref (heap st) s) = o :: rest ->
  R st (log (EvOp s o) (with_heap (update s (set_collections rest)) st)).
Hypothesis R_collect : forall st s o, R st (with_heap (collect s o) st).
Hypothesis R_flag : forall st s, R st (with_heap (set_aborted s true) st).

Lemma ends_with_trans st st1 r :
  R st st1 -> ends_with (R st1) r -> ends_with (R st) r.
Proof. intros H. destruct r; simpl; eauto. Qed.

Lemma and_then_ends st r k :
  ends_with (R st) r ->
  (forall st1, ends_with (R st1) (k st1)) ->
  ends_with (R st) (and_then r k).
Proof.
  intros Hr Hk. destruct r as [st1| |]; simpl in *; [|done|done].
  by eapply ends_with_trans.
Qed.

Lemma seq_each_ends {A} (f : A -> state -> outcome) l :
  (forall x st, ends_with (R st) (f x st)) ->
  forall st, ends_with (R st) (seq_each f l st).
Proof.
  intros Hf. induction l as [|x l IH]; intros st; simpl; [apply R_refl|].
  apply and_then_ends; auto.
Qed.

Lemma run_ends call body :
  (forall s st, ends_with (R st) (call s st)) ->
  forall st, ends_with (R st) (run call body st).
Proof.
  intros Hcall. apply seq_each_ends. intros [s o|s|] st; simpl; auto.
Qed.

Lemma emit_ends call s k :
  (forall s st, ends_with (R st) (call s st)) ->
  forall st, ends_with (R st) (emit listener_body call s k st).
Proof.
  intros Hcall st. unfold emit.
  eapply ends_with_trans; [apply (R_emit st s k)|].
  apply seq_each_ends. intros l st'.
  eapply ends_with_trans; [apply (R_listener st' s k l)|].
  by apply run_ends.
Qed.

Lemma drain_ends call s n :
  (forall s st, ends_with (R st) (call s st)) ->
  forall st, ends_with (R st) (drain op_abort call n s st).
Proof.
  intros Hcall. induction n as [|n IH]; intros st; simpl; [done|].
  destruct (collections (deref (heap st) s)) as [|o rest] eqn:Hcs; simpl; [apply R_refl|].
  eapply ends_with_trans; [by apply (R_shift st s o rest)|].
  apply and_then_ends; [by apply run_ends | done].
Qed.

Lemma abort_ends n : forall s st, ends_with (R st) (abort op_abort listener_body n s st).
Proof.
  induction n as [|n IH]; intros s st; simpl; [done|].
  destruct (aborted n (heap st) s) as [[|]|]; simpl; [apply R_refl | | done].
  apply and_then_ends; [by apply emit_ends|]. intros st1.
  apply and_then_ends; [by apply drain_ends|]. intros st2.
  apply and_then_ends; [by apply seq_each_ends|]. intros st3.
  eapply ends_with_trans; [apply (R_flag st3 s)|].
  by apply emit_ends.
Qed.

End RunInvariant.

(** ** What [collect] and [abort] keep, whatever the callbacks do *)

Lemma collect_collections s t o h :
  collections (deref (collect s o h) t)
  = if decide (s = t)
    then (if JsArray.includes (collections (deref h s)) o
          then collections (deref h s) else collections (deref h s) ++ [o])
    else collections (deref h t).
Proof.
  case_decide as E; [subst t; by rewrite collect_deref | by rewrite collect_deref_ne].
Qed.

Lemma set_aborted_collections s v t h :
  collections (deref (set_aborted s v h) t) = collections (deref h t).
Proof.
  unfold set_aborted. destruct (decide (s = t)) as [<-|Hne];
    [by rewrite deref_update_eq | by rewrite deref_update_ne].
Qed.

Lemma collect_NoDup s o h :
  NoDup (collections (deref h s)) -> NoDup (collections (deref (collect s o h) s)).
Proof.
  intros Hnd. rewrite collect_deref. simpl.
  destruct (JsArray.includes (collections (deref h s)) o) eqn:E; [done|].
  apply includes_false in E.
  apply NoDup_app. split; [done|]. split; [|apply NoDup_singleton].
  intros x Hx ->%list_elem_of_singleton. done.
Qed.

Lemma collect_elem s o h : o ∈ collections (deref (collect s o h) s).
Proof.
  rewrite collect_deref. simpl.
  destruct (JsArray.includes (collections (deref h s)) o) eqn:E.
  - by apply includes_true in E.
  - apply elem_of_app. right. by left.
Qed.

(** X6.  [collect] never stores an object twice: a duplicate-free
    [collections] stays duplicate-free, the operations collected before
    keep their places at the front, and the collected object is in the
    array afterwards. *)
Theorem collect_keeps_NoDup s o h :
  NoDup (collections (deref h s)) ->
  NoDup (collections (deref (collect s o h) s))
  /\ collections (deref h s) `prefix_of` collections (deref (collect s o h) s)
  /\ o ∈ collections (deref (collect s o h) s).
Proof.
  intros Hnd. split; [by apply collect_NoDup|].
  rewrite collect_deref. simpl.
  destruct (JsArray.includes (collections (deref h s)) o) eqn:E.
  - apply includes_true in E. done.
  - split; [by apply prefix_app_r|]. apply elem_of_app. right. by left.
Qed.

Section EveryRun.

Variable op_abort : nat -> list action.
Variable listener_body : nat -> list action.

Local Abbreviation abort' := (abort op_abort listener_body).

Lemma accounted_refl st : accounted st st.
Proof. exists []. rewrite app_nil_r. split; [done|]. by intros t o H1 H2. Qed.

Lemma accounted_trans st1 st2 st3 :
  accounted st1 st2 -> accounted st2 st3 -> accounted st1 st3.
Proof.
  intros (tr12 & Ht12 & H12) (tr23 & Ht23 & H23). exists (tr12 ++ tr23). split.
  - by rewrite Ht23, Ht12, <- app_assoc.
  - intros t o Hin Hout. apply elem_of_app.
    destruct (decide (o ∈ collections (deref (heap st2) t))); [right | left]; eauto.
Qed.

Lemma accounted_log st e : accounted st (log e st).
Proof. exists [e]. split; [done|]. by intros t o H1 H2. Qed.

Lemma accounted_shift st s o rest :
  collections (deref (heap st) s) = o :: rest ->
  accounted st (log (EvOp s o) (with_heap (update s (set_collections rest)) st)).
Proof.
  intros Hcs. exists [EvOp s o]. split; [done|]. simpl. intros t x Hin Hout.
  destruct (decide (s = t)) as [<-|Hne].
  - rewrite deref_update_eq in Hout. simpl in Hout. rewrite Hcs in Hin.
    apply elem_of_cons in Hin as [->|Hin]; [by left | done].
  - by rewrite deref_update_ne in Hout.
Qed.

Lemma accounted_collect st s o : accounted st (with_heap (collect s o) st).
Proof.
  exists []. rewrite app_nil_r. split; [done|]. simpl. intros t x Hin Hout.
  destruct Hout. rewrite collect_collections.
  case_decide as E; [subst t|done].
  destruct (JsArray.includes _ _); [done|]. apply elem_of_app. by left.
Qed.

Lemma accounted_flag st s : accounted st (with_heap (set_aborted s true) st).
Proof.
  exists []. rewrite app_nil_r. split; [done|]. simpl. intros t x Hin Hout.
  by rewrite set_aborted_collections in Hout.
Qed.

Lemma abort_accounted n s st : ends_with (accounted st) (abort' n s st).
Proof.
  apply abort_ends;
    eauto using accounted_refl, accounted_trans, accounted_log, accounted_shift,
      accounted_collect, accounted_flag.
Qed.

(** X8.  Whatever the callbacks do (call [collect], call [abort],
    raise), and whether [abort()] returns or raises, the calls it made
    are appended to the trace, and every operation that is no longer in
    the [collections] array it was in has had its [abort] called by the
    aborter that held it. *)
Theorem abort_accounts_for_operations n s st st' :
  abort' n s st = Done st' \/ abort' n s st = Thrown st' ->
  exists tr',
    trace st' = trace st ++ tr'
    /\ forall t o, o ∈ collections (deref (heap st) t) ->
                   o ∉ collections (deref (heap st') t) ->
                   EvOp t o ∈ tr'.
Proof.
  intros Hrun. pose proof (abort_accounted n s st) as H.
  by destruct Hrun as [E|E]; rewrite E in H.
Qed.

(** X7.  Whatever the callbacks do, and whether [abort()] returns or
    raises, no [collections] array of the store holds an object twice
    afterwards if none did before. *)
Theorem abort_keeps_NoDup n s st st' :
  duplicate_free (heap st) ->
  abort' n s st = Done st' \/ abort' n s st = Thrown st' ->
  duplicate_free (heap st').
Proof.
  intros Hnd Hrun.
  pose proof (abort_ends op_abort listener_body
                (fun st st' => duplicate_free (heap st) -> duplicate_free (heap st'))) as H.
  specialize (H (fun _ H => H) (fun _ _ _ H12 H23 H1 => H23 (H12 H1))
                (fun _ _ _ H => H) (fun _ _ _ _ H => H)).
  specialize (H ltac:(
    intros st0 s0 o rest Hcs Hd t; simpl;
    destruct (decide (s0 = t)) as [<-|Hne];
    [ rewrite deref_update_eq; simpl; specialize (Hd s0); rewrite Hcs in Hd;
      by apply NoDup_cons in Hd as [_ Hd]
    | rewrite deref_update_ne by done; apply Hd ])).
  specialize (H ltac:(
    intros st0 s0 o Hd t; simpl;
    destruct (decide (s0 = t)) as [<-|Hne];
    [ by apply collect_NoDup
    | rewrite collect_deref_ne by done; apply Hd ])).
  specialize (H ltac:(
    intros st0 s0 Hd t; simpl; rewrite set_aborted_collections; apply Hd)).
  specialize (H n s st).
  destruct Hrun as [E|E]; rewrite E in H; by apply H.
Qed.

Lemma same_children_refl st : same_children st st.
Proof. by intros t. Qed.

Lemma same_children_trans st1 st2 st3 :
  same_children st1 st2 -> same_children st2 st3 -> same_children st1 st3.
Proof. intros H12 H23 t. by rewrite H23, H12. Qed.

Lemma same_children_log st e : same_children st (log e st).
Proof. by intros t. Qed.

Lemma same_children_shift st s o rest :
  same_children st (log (EvOp s o) (with_heap (update s (set_collections rest)) st)).
Proof.
  intros t. simpl. destruct (decide (s = t)) as [<-|Hne];
    [by rewrite deref_update_eq | by rewrite deref_update_ne].
Qed.

Lemma same_children_collect st s o : same_children st (with_heap (collect s o) st).
Proof. intros t. simpl. apply collect_children. Qed.

Lemma same_children_flag st s : same_children st (with_heap (set_aborted s true) st).
Proof. intros t. simpl. by destruct (evolves_update_flag (heap st) s t) as (-> & _). Qed.

Lemma abort_same_children n s st :
  ends_with (same_children st) (abort' n s st).
Proof.
  apply abort_ends;
    eauto using same_children_refl, same_children_trans, same_children_log,
      same_children_shift, same_children_collect, same_children_flag.
Qed.

Lemma seq_each_Done_elem (P : state -> state -> Prop) (f : nat -> state -> outcome) x :
  (forall st, P st st) ->
  (forall st1 st2 st3, P st1 st2 -> P st2 st3 -> P st1 st3) ->
  (forall y st, ends_with (P st) (f y st)) ->
  forall l st st',
    seq_each f l st = Done st' -> x ∈ l ->
    exists sta stb, P st sta /\ f x sta = Done stb.
Proof.
  intros Hrefl Htrans Hf. induction l as [|y l IH]; intros st st' Hrun Hx.
  - by apply elem_of_nil in Hx.
  - simpl in Hrun. apply and_then_Done in Hrun as (st1 & Hy & Hrest).
    apply elem_of_cons in Hx as [->|Hx]; [by exists st, st1|].
    destruct (IH st1 st' Hrest Hx) as (sta & stb & HP & Hrun').
    exists sta, stb. split; [|done].
    eapply Htrans; [|exact HP]. specialize (Hf y st). by rewrite Hy in Hf.
Qed.

Lemma self_child_getter n h s :
  s ∈ children (deref h s) -> aborted n h s <> Some true.
Proof.
  intros Hs. induction n as [|n IH]; simpl; [done|].
  destruct (_aborted (deref h s)); [|done].
  intros Hall%every_true. rewrite Forall_forall in Hall. by apply IH, Hall.
Qed.

(** X9.  [addChildAborter] does not refuse the aborter itself.  For an
    aborter that is among its own children the getter [aborted] never
    returns [true], and [abort()] never returns normally, whatever the
    callbacks do: the pass calls [abort()] on the aborter again while
    its guard is still false. *)
Theorem self_child_never_returns s st :
  s ∈ children (deref (heap st) s) ->
  (forall n, aborted n (heap st) s <> Some true)
  /\ (forall n st', abort' n s st <> Done st').
Proof.
  intros Hs. split; [intros n; by apply self_child_getter|].
  intros n. revert st Hs. induction n as [|n IH]; intros st Hs st'; simpl; [done|].
  destruct (aborted n (heap st) s) as [[|]|] eqn:Hb; [|  |done].
  { by apply self_child_getter in Hb. }
  intros (st1 & Hemit & Hrest)%and_then_Done.
  apply and_then_Done in Hrest as (st2 & Hdrain & Hrest).
  apply and_then_Done in Hrest as (st3 & Hloop & _).
  assert (Hcall : forall s0 st0, ends_with (same_children st0) (abort' n s0 st0))
    by (intros; apply abort_same_children).
  assert (H1 : same_children st st1).
  { assert (H : ends_with (same_children st) (emit listener_body (abort' n) s Abort st)).
    { apply emit_ends;
        eauto using same_children_refl, same_children_trans, same_children_log,
          same_children_collect. }
    by rewrite Hemit in H. }
  assert (H2 : same_children st1 st2).
  { assert (H : ends_with (same_children st1) (drain op_abort (abort' n) n s st1)).
    { apply drain_ends;
        eauto using same_children_refl, same_children_trans, same_children_shift,
          same_children_collect. }
    by rewrite Hdrain in H. }
  assert (Hs2 : s ∈ children (deref (heap st2) s)) by by rewrite H2, H1.
  destruct (seq_each_Done_elem same_children (abort' n) s
              same_children_refl same_children_trans Hcall _ _ _ Hloop Hs2)
    as (sta & stb & Hsame & Hrun).
  eapply (IH sta); [|exact Hrun]. by rewrite Hsame, H2, H1.
Qed.

End EveryRun.

(** ** Well-behaved passes, seen from the descendants *)

Lemma descendant_child h s c t :
  c ∈ children (deref h s) -> descendant h c t -> descendant h s t.
Proof. intros Hc Hd. by eapply rtc_l. Qed.

Lemma descendant_same_children h h' a b :
  (forall t, children (deref h' t) = children (deref h t)) ->
  descendant h a b -> descendant h' a b.
Proof.
  intros Hch Hd. induction Hd as [|x y z Hxy _ IH]; [apply rtc_refl|].
  eapply rtc_l; [|exact IH]. simpl. by rewrite Hch.
Qed.

Lemma descendant_evolves h h' a b :
  evolves h h' -> descendant h' a b -> descendant h a b.
Proof.
  intros Hev. apply descendant_same_children. intros t.
  by destruct (Hev t) as (-> & _).
Qed.

Lemma descendant_rank rk h s t :
  ranked rk h -> descendant h s t -> rk t <= rk s.
Proof.
  intros Hrk Hd. induction Hd as [|x y z Hxy _ IH]; [done|].
  specialize (Hrk x y Hxy). lia.
Qed.

Lemma canceled_descendant h s t :
  canceled h s -> descendant h s t -> canceled h t.
Proof.
  intros Hc Hd. induction Hd as [|x y z Hxy _ IH]; [done|].
  apply IH. inversion Hc as [? _ Hall]; subst.
  rewrite Forall_forall in Hall. by apply Hall.
Qed.

Lemma raised_empty_refl h : raised_empty h h.
Proof. intros t H1 H2. congruence. Qed.

Lemma raised_empty_trans h1 h2 h3 :
  evolves h2 h3 ->
  raised_empty h1 h2 -> raised_empty h2 h3 -> raised_empty h1 h3.
Proof.
  intros Hev H12 H23 t Hf1 Hf3.
  destruct (_aborted (deref h2 t)) eqn:Hf2.
  - destruct (Hev t) as (_ & _ & _ & [-> | ->]); [by apply H12 | done].
  - by apply H23.
Qed.

Section Settles.

Variable op_abort : nat -> list action.
Variable listener_body : nat -> list action.

Local Abbreviation abort' := (abort op_abort listener_body).
Local Abbreviation quiet' := (quiet op_abort listener_body).
Local Abbreviation quiet_below' := (quiet_below op_abort listener_body).

Lemma children_settle rk b :
  (forall c st, rk c < b -> ranked rk (heap st) -> quiet_below' rk b (heap st) ->
     exists st' n0,
       (forall n, n0 <= n -> abort' n c st = Done st')
       /\ evolves (heap st) (heap st')
       /\ canceled (heap st') c
       /\ raised_empty (heap st) (heap st')
       /\ outside_untouched c (heap st) (heap st')) ->
  forall cs st,
    Forall (fun c => rk c < b) cs -> ranked rk (heap st) ->
    quiet_below' rk b (heap st) ->
    exists st' n0,
      (forall n, n0 <= n -> seq_each (abort' n) cs st = Done st')
      /\ evolves (heap st) (heap st')
      /\ Forall (canceled (heap st')) cs
      /\ raised_empty (heap st) (heap st')
      /\ forall t, (forall c, c ∈ cs -> ~ descendant (heap st) c t) ->
                   deref (heap st') t = deref (heap st) t.
Proof.
  intros IH cs. induction cs as [|c cs IHcs]; intros st Hlt Hrk Hq.
  - exists st, 0. split; [done|]. split; [apply evolves_refl|].
    split; [constructor|]. split; [apply raised_empty_refl | done].
  - inversion Hlt as [|? ? Hc Hcs]; subst.
    destruct (IH c st Hc Hrk Hq) as (st1 & n1 & Hrun1 & Hev1 & Hcan1 & Hre1 & Hout1).
    destruct (IHcs st1 Hcs) as (st2 & n2 & Hrun2 & Hev2 & Hcan2 & Hre2 & Hout2).
    { by eapply evolves_ranked. }
    { by eapply evolves_quiet_below. }
    exists st2, (Nat.max n1 n2). split.
    { intros n Hn. simpl. rewrite Hrun1 by lia. simpl. apply Hrun2. lia. }
    split; [by eapply evolves_trans|].
    split; [constructor; [by eapply evolves_canceled | done]|].
    split; [by eapply raised_empty_trans|].
    intros t Ht. rewrite Hout2, Hout1; [done | |].
    + apply Ht. by left.
    + intros c' Hc' Hd. apply (Ht c'); [by right|]. by eapply descendant_evolves.
Qed.

Lemma abort_quiet_settles rk : forall m s st,
  rk s = m -> ranked rk (heap st) -> quiet_below' rk (S m) (heap st) ->
  exists st' n0,
    (forall n, n0 <= n -> abort' n s st = Done st')
    /\ evolves (heap st) (heap st')
    /\ canceled (heap st') s
    /\ raised_empty (heap st) (heap st')
    /\ outside_untouched s (heap st) (heap st').
Proof.
  induction m as [m IH] using lt_wf_ind. intros s st Hm Hrk Hq. subst m.
  destruct (aborted_total rk (heap st) (S (rk s)) s Hrk (le_n _)) as [[|] Hb].
  - pose proof (aborted_true _ _ _ Hb) as Hcan.
    exists st, (S (S (rk s))). split.
    + intros n Hn. destruct n as [|n]; [lia|].
      apply abort_noop. eapply aborted_canceled; [done | lia | done].
    + split; [apply evolves_refl|]. split; [done|].
      split; [apply raised_empty_refl | by intros t _].
  - pose proof (aborted_false _ _ _ Hb) as Hncan.
    destruct (Hq s (le_n _)) as [Hops Hls].
    set (st1 := {| heap := heap st;
                   trace := trace st ++ EvEmit s Abort
                     :: map (EvListener s Abort)
                          (Mitt.get (emitter (deref (heap st) s)) Abort) |}).
    set (st2 := {| heap := drained s (heap st);
                   trace := trace st1 ++ map (EvOp s) (collections (deref (heap st) s)) |}).
    pose proof (evolves_drained (heap st) s) as Hev2.
    pose proof (only_changes_drained s (heap st)) as (Hoc2 & _).
    assert (Hch2 : children (deref (heap st2) s) = children (deref (heap st) s)).
    { simpl. by destruct (Hev2 s) as (-> & _). }
    destruct (children_settle rk (rk s)) with (cs := children (deref (heap st2) s)) (st := st2)
      as (st3 & n3 & Hrun3 & Hev3 & Hcan3 & Hre3 & Hout3).
    { intros c stc Hc Hrkc Hqc. apply (IH (rk c)); [done | done | done |].
      eapply quiet_below_le; [|exact Hqc]. lia. }
    { rewrite Hch2. apply Forall_forall. intros c Hc. by apply Hrk. }
    { simpl. by eapply evolves_ranked. }
    { simpl. eapply evolves_quiet_below; [done|].
      eapply quiet_below_le; [|exact Hq]. lia. }
    simpl in Hev3, Hre3, Hout3.
    pose proof (evolves_trans _ _ _ Hev2 Hev3) as Hev13.
    pose proof (evolves_trans _ _ _ Hev13 (evolves_update_flag (heap st3) s)) as Hev4.
    assert (Hem4 : emitter (deref (set_aborted s true (heap st3)) s)
                   = emitter (deref (heap st) s)).
    { by destruct (Hev4 s) as (_ & -> & _). }
    set (st' := {| heap := set_aborted s true (heap st3);
                   trace := trace st3 ++ EvEmit s Aborted
                     :: map (EvListener s Aborted)
                          (Mitt.get (emitter (deref (heap st) s)) Aborted) |}).
    exists st', (S (Nat.max (S (rk s))
                    (Nat.max (S (length (collections (deref (heap st) s)))) n3))).
    split.
    { intros n Hn. destruct n as [|n]; [lia|].
      rewrite abort_pass by (eapply aborted_not_canceled; [done | lia | done]).
      rewrite emit_quiet by apply Hls. fold st1. cbn [and_then].
      rewrite (drain_quiet op_abort _ s (collections (deref (heap st) s))) by (done || lia).
      fold st2. cbn [and_then].
      rewrite Hrun3 by lia. cbn [and_then].
      rewrite emit_quiet; cbn [heap with_heap trace]; rewrite Hem4;
        [done | exact (Hls Aborted)]. }
    split; [done|]. split.
    { constructor.
      - unfold st', set_aborted. simpl. by rewrite deref_update_eq.
      - destruct (Hev4 s) as (Hch4 & _). simpl. rewrite Hch4, <- Hch2.
        eapply Forall_impl; [exact Hcan3|]. simpl. intros c.
        apply evolves_canceled, evolves_update_flag. }
    split.
    { intros t Hf Hf'. unfold st' in *. cbn [heap] in *.
      rewrite set_aborted_collections.
      destruct (decide (s = t)) as [<-|Hne].
      - destruct (Hev3 s) as (_ & _ & _ & [-> | ->]); [|done].
        apply drained_collections.
      - apply Hre3.
        + by rewrite Hoc2.
        + unfold set_aborted in Hf'. by rewrite deref_update_ne in Hf'. }
    intros t Ht. unfold st'. cbn [heap].
    assert (Hne : s <> t) by (intros ->; apply Ht, rtc_refl).
    unfold set_aborted. rewrite deref_update_ne by done.
    rewrite Hout3; [by apply Hoc2|].
    intros c Hc Hd. apply Ht.
    eapply descendant_child; [by rewrite <- Hch2|].
    exact (descendant_evolves _ _ _ _ Hev2 Hd).
Qed.

End Settles.

(** ** What a pass does to the hierarchy *)

Section Propagation.

Variable op_abort : nat -> list action.
Variable listener_body : nat -> list action.

Local Abbreviation abort' := (abort op_abort listener_body).
Local Abbreviation quiet' := (quiet op_abort listener_body).

Lemma abort_settles rk s st :
  ranked rk (heap st) -> quiet' (heap st) ->
  exists st' n0,
    (forall n, n0 <= n -> abort' n s st = Done st')
    /\ evolves (heap st) (heap st')
    /\ canceled (heap st') s
    /\ raised_empty (heap st) (heap st')
    /\ outside_untouched s (heap st) (heap st').
Proof.
  intros Hrk Hq.
  apply (abort_quiet_settles op_abort listener_body rk (rk s)); [done | done |].
  by apply quiet_quiet_below.
Qed.

(** X10.  With well-behaved callbacks on an acyclic hierarchy,
    [abort()] on an aborter reaches every descendant whose flag was not
    set: afterwards the descendant reports aborted, its [collections]
    is empty, and each operation it had collected has had its [abort]
    called by the descendant. *)
Theorem abort_reaches_descendants rk s t st :
  ranked rk (heap st) -> quiet' (heap st) ->
  descendant (heap st) s t ->
  _aborted (deref (heap st) t) = false ->
  exists st' n0,
    (forall n, n0 <= n -> abort' n s st = Done st')
    /\ (forall n, rk t < n -> aborted n (heap st') t = Some true)
    /\ collections (deref (heap st') t) = []
    /\ exists tr',
         trace st' = trace st ++ tr'
         /\ forall o, o ∈ collections (deref (heap st) t) -> EvOp t o ∈ tr'.
Proof.
  intros Hrk Hq Hd Hf.
  destruct (abort_settles rk s st Hrk Hq) as (st' & n0 & Hrun & Hev & Hcan & Hre & _).
  exists st', n0. split; [done|].
  assert (Hcant : canceled (heap st') t).
  { eapply canceled_descendant; [exact Hcan|].
    eapply descendant_same_children; [|exact Hd].
    intros x. by destruct (Hev x) as (-> & _). }
  assert (Hcs : collections (deref (heap st') t) = []).
  { apply Hre; [done|]. by inversion Hcant. }
  split; [|split; [done|]].
  - intros n Hn. eapply aborted_canceled; [by eapply evolves_ranked | done | done].
  - pose proof (abort_accounted op_abort listener_body n0 s st) as Hacc.
    rewrite (Hrun n0 (le_n _)) in Hacc. destruct Hacc as (tr' & Htr & Hops).
    exists tr'. split; [done|]. intros o Ho. apply Hops; [done|].
    rewrite Hcs. apply not_elem_of_nil.
Qed.

(** X11.  With well-behaved callbacks on an acyclic hierarchy,
    [abort()] on an aborter changes nothing outside the aborter and its
    descendants (so no parent and no aborter of higher rank), and
    inside it only raises [_aborted] flags and empties [collections]
    arrays: [children] and the listeners of every aborter stay, so the
    aborter can be used again. *)
Theorem abort_touches_only_descendants rk s st :
  ranked rk (heap st) -> quiet' (heap st) ->
  exists st' n0,
    (forall n, n0 <= n -> abort' n s st = Done st')
    /\ (forall t, ~ descendant (heap st) s t -> deref (heap st') t = deref (heap st) t)
    /\ (forall t, rk s < rk t -> deref (heap st') t = deref (heap st) t)
    /\ (forall t,
          children (deref (heap st') t) = children (deref (heap st) t)
          /\ emitter (deref (heap st') t) = emitter (deref (heap st) t)
          /\ (_aborted (deref (heap st) t) = true -> _aborted (deref (heap st') t) = true)
          /\ (collections (deref (heap st') t) = collections (deref (heap st) t)
              \/ collections (deref (heap st') t) = [])).
Proof.
  intros Hrk Hq.
  destruct (abort_settles rk s st Hrk Hq) as (st' & n0 & Hrun & Hev & _ & _ & Hout).
  exists st', n0. split; [done|]. split; [done|]. split; [|done].
  intros t Ht. apply Hout. intros Hd%(descendant_rank rk); [lia | done].
Qed.

End Propagation.

Lemma collect_not_canceled s t o h :
  descendant h s t -> ~ canceled (collect t o h) s.
Proof.
  intros Hd Hc.
  assert (Hct : canceled (collect t o h) t).
  { eapply canceled_descendant; [exact Hc|].
    eapply descendant_same_children; [|exact Hd].
    intros x. by rewrite collect_children. }
  inversion Hct as [? Hf _]; subst. by rewrite collect_deref in Hf.
Qed.

(** X12.  On an acyclic hierarchy, [collect] on an aborter makes the
    getter [aborted] of that aborter and of every ancestor false,
    whatever it was before. *)
Theorem collect_rearms_ancestors rk s t o h :
  ranked rk h -> descendant h s t ->
  forall n, rk s < n -> aborted n (collect t o h) s = Some false.
Proof.
  intros Hrk Hd n Hn.
  eapply aborted_not_canceled; [by apply collect_ranked | done |].
  by apply collect_not_canceled.
Qed.

(** X13.  With well-behaved callbacks on an acyclic hierarchy, an
    operation collected by a descendant is aborted by the next
    [abort()] of any ancestor, also when the ancestor had reported
    aborted before: the call runs a full pass of the ancestor, which
    emits ["abort"] and ["aborted"] once each, and the ancestor reports
    aborted again. *)
Theorem collect_in_descendant_then_abort op_abort listener_body rk s t o st :
  ranked rk (heap st) -> quiet op_abort listener_body (heap st) ->
  op_abort o = [] ->
  descendant (heap st) s t ->
  exists st' n0,
    (forall n, n0 <= n ->
       abort op_abort listener_body n s (with_heap (collect t o) st) = Done st')
    /\ (forall n, rk s < n -> aborted n (heap st') s = Some true)
    /\ exists tr',
         trace st' = trace st ++ tr'
         /\ EvOp t o ∈ tr'
         /\ count_occ event_eq_dec tr' (EvEmit s Abort) = 1
         /\ count_occ event_eq_dec tr' (EvEmit s Aborted) = 1.
Proof.
  intros Hrk Hq Ho Hd.
  set (st1 := with_heap (collect t o) st).
  assert (Hrk1 : ranked rk (heap st1)) by by apply collect_ranked.
  assert (Hq1 : quiet op_abort listener_body (heap st1)).
  { intros x. by apply collect_quiet_aborter. }
  assert (Hb : aborted (S (rk s)) (heap st1) s = Some false).
  { eapply aborted_not_canceled; [done | lia |]. by apply collect_not_canceled. }
  destruct (abort_quiet_pass op_abort listener_body rk s st1 Hrk1 Hq1)
    as (st' & n0 & Hrun & Hok).
  destruct (abort_settles op_abort listener_body rk s st1 Hrk1 Hq1)
    as (st'' & n1 & Hrun' & Hev & Hcan & Hre & _).
  assert (st'' = st') as ->.
  { pose proof (Hrun (Nat.max n0 n1) ltac:(lia)) as E.
    rewrite (Hrun' (Nat.max n0 n1)) in E by lia. by inversion E. }
  exists st', n0. split; [done|].
  split; [by eapply pass_ok_aborted|].
  destruct (pass_ok_emits rk s st1 st' _ Hok Hb) as (_ & tr' & Htr & Hc1 & Hc2).
  exists tr'. split; [done|]. split; [|done].
  assert (Hcant : canceled (heap st') t).
  { eapply canceled_descendant; [exact Hcan|].
    eapply descendant_same_children; [|exact Hd].
    intros x. destruct (Hev x) as (-> & _). simpl. by rewrite collect_children. }
  assert (Hcs : collections (deref (heap st') t) = []).
  { apply Hre; [simpl; by rewrite collect_deref | by inversion Hcant]. }
  pose proof (abort_accounted op_abort listener_body n0 s st1) as Hacc.
  rewrite (Hrun n0 (le_n _)) in Hacc. destruct Hacc as (tr'' & Htr' & Hops).
  assert (tr'' = tr') as -> by (rewrite Htr in Htr'; by apply app_inv_head in Htr').
  apply Hops; [|rewrite Hcs; apply not_elem_of_nil].
  simpl. by apply collect_elem.
Qed.

(** ** Instances of the statements above *)

Lemma duplicate_free_check (h : gmap nat MagicAborter) :
  map_Forall (fun _ a => NoDup (collections a)) h -> duplicate_free h.
Proof.
  intros Hall t. apply (deref_map_Forall (fun _ a => NoDup (collections a)) h Hall).
  intros _. apply NoDup_nil_2.
Qed.

Lemma removeChildAborter_removes_first_witness :
  let h := addChildAborter 0 1 (addChildAborter 0 2 (addChildAborter 0 1 ∅)) in
  children (deref h 0) = [1; 2; 1]
  /\ children (deref (removeChildAborter 0 1 h) 0) = [2; 1]
  /\ _aborted (deref (removeChildAborter 0 1 h) 0) = _aborted (deref h 0)
  /\ collections (deref (removeChildAborter 0 1 h) 0) = collections (deref h 0)
  /\ emitter (deref (removeChildAborter 0 1 h) 0) = emitter (deref h 0).
Proof.
  split; [reflexivity|].
  exact (removeChildAborter_removes_first 0 1 [] [2; 1]
           (addChildAborter 0 1 (addChildAborter 0 2 (addChildAborter 0 1 ∅)))
           eq_refl (not_elem_of_nil 1)).
Defined.

Lemma addChildAborter_removeChildAborter_witness :
  let h := addChildAborter 0 1 ∅ in
  (2 ∉ children (deref h 0))
  /\ forall t, deref (removeChildAborter 0 2 (addChildAborter 0 2 h)) t = deref h t.
Proof.
  assert (H : 2 ∉ children (deref (addChildAborter 0 1 ∅) 0)).
  { apply (bool_decide_unpack _). by vm_compute. }
  split; [exact H|].
  exact (addChildAborter_removeChildAborter 0 2 (addChildAborter 0 1 ∅) H).
Defined.

Lemma ex_new_ranked : ranked ex_new_rank (heap ex_new).
Proof. apply ranked_check. apply (bool_decide_unpack _). by vm_compute. Qed.

Lemma abort_nothing_collected_witness :
  children (deref (heap ex_new) 5) = [2]
  /\ aborted 2 (heap ex_new) 5 = Some false
  /\ forall n, 1 < n ->
       abort no_actions no_actions (S n) 5 ex_new
       = Done {| heap := set_aborted 5 true (heap ex_new);
                 trace := [EvEmit 5 Abort; EvEmit 5 Aborted] |}.
Proof.
  split; [reflexivity|]. split; [reflexivity|].
  exact (abort_nothing_collected no_actions no_actions ex_new_rank 5 ex_new
           ex_new_ranked eq_refl eq_refl eq_refl
           (List.Forall_cons _ 2 [] (aborted_true 1 (heap ex_new) 2 eq_refl)
              (List.Forall_nil _))).
Defined.

Lemma abort_after_setter_witness :
  collections (deref (heap ex_state) 1) = [5]
  /\ (forall n, 0 < n ->
        abort no_actions no_actions (S n) 1 (with_heap (set_aborted 1 true) ex_state)
        = Done (with_heap (set_aborted 1 true) ex_state))
  /\ collections (deref (set_aborted 1 true (heap ex_state)) 1) = [5].
Proof.
  split; [reflexivity|].
  exact (abort_after_setter no_actions no_actions ex_rank 1 ex_state
           ex_heap_ranked (List.Forall_nil _)).
Defined.

Lemma collect_keeps_NoDup_witness :
  NoDup (collections (deref ex_heap 0))
  /\ NoDup (collections (deref (collect 0 9 ex_heap) 0))
  /\ collections (deref ex_heap 0) `prefix_of` collections (deref (collect 0 9 ex_heap) 0)
  /\ 9 ∈ collections (deref (collect 0 9 ex_heap) 0).
Proof.
  assert (Hnd : NoDup (collections (deref ex_heap 0))).
  { apply (bool_decide_unpack _). by vm_compute. }
  split; [exact Hnd|]. exact (collect_keeps_NoDup 0 9 ex_heap Hnd).
Defined.

Lemma ex_heap_duplicate_free : duplicate_free (heap ex_state).
Proof. apply duplicate_free_check. apply (bool_decide_unpack _). by vm_compute. Qed.

Lemma abort_keeps_NoDup_witness :
  exists st',
    abort (throwing 4) (collecting 10 0 3) 5 0 ex_state = Thrown st'
    /\ duplicate_free (heap st').
Proof.
  eexists. split; [by vm_compute|].
  eapply (abort_keeps_NoDup (throwing 4) (collecting 10 0 3) 5 0 ex_state);
    [exact ex_heap_duplicate_free | right; by vm_compute].
Defined.

Lemma abort_accounts_for_operations_witness :
  exists st',
    abort (throwing 4) no_actions 5 0 ex_state = Thrown st'
    /\ exists tr',
         trace st' = trace ex_state ++ tr'
         /\ forall t o, o ∈ collections (deref (heap ex_state) t) ->
                        o ∉ collections (deref (heap st') t) ->
                        EvOp t o ∈ tr'.
Proof.
  eexists. split; [by vm_compute|].
  eapply (abort_accounts_for_operations (throwing 4) no_actions 5 0 ex_state).
  right. by vm_compute.
Defined.

Lemma self_child_never_returns_witness :
  (0 ∈ children (deref (heap ex_self) 0))
  /\ (forall n, aborted n (heap ex_self) 0 <> Some true)
  /\ (forall n st', abort no_actions no_actions n 0 ex_self <> Done st').
Proof.
  assert (H : 0 ∈ children (deref (heap ex_self) 0)).
  { apply (bool_decide_unpack _). by vm_compute. }
  split; [exact H|].
  exact (self_child_never_returns no_actions no_actions 0 ex_self H).
Defined.

Lemma ex_child_descendant : descendant (heap ex_state) 0 1.
Proof. apply rtc_once. apply (bool_decide_unpack _). by vm_compute. Qed.

Lemma abort_reaches_descendants_witness :
  collections (deref (heap ex_state) 1) = [5]
  /\ exists st' n0,
       (forall n, n0 <= n -> abort no_actions no_actions n 0 ex_state = Done st')
       /\ (forall n, ex_rank 1 < n -> aborted n (heap st') 1 = Some true)
       /\ collections (deref (heap st') 1) = []
       /\ exists tr',
            trace st' = trace ex_state ++ tr'
            /\ forall o, o ∈ collections (deref (heap ex_state) 1) -> EvOp 1 o ∈ tr'.
Proof.
  split; [reflexivity|].
  exact (abort_reaches_descendants no_actions no_actions ex_rank 0 1 ex_state
           ex_heap_ranked ex_heap_quiet ex_child_descendant eq_refl).
Defined.

Lemma abort_touches_only_descendants_witness :
  exists st' n0,
    (forall n, n0 <= n -> abort no_actions no_actions n 1 ex_state = Done st')
    /\ deref (heap st') 0 = deref (heap ex_state) 0.
Proof.
  destruct (abort_touches_only_descendants no_actions no_actions ex_rank 1 ex_state
              ex_heap_ranked ex_heap_quiet) as (st' & n0 & Hrun & _ & Hup & _).
  exists st', n0. split; [exact Hrun|]. apply Hup. vm_compute. lia.
Defined.

Lemma collect_rearms_ancestors_witness :
  let h := set_aborted 2 true (heap ex_family) in
  aborted 2 h 0 = Some true
  /\ forall n, ex_rank 0 < n -> aborted n (collect 2 9 h) 0 = Some false.
Proof.
  split; [reflexivity|].
  apply (collect_rearms_ancestors ex_rank 0 2 9 (set_aborted 2 true (heap ex_family))).
  - apply ranked_check. apply (bool_decide_unpack _). by vm_compute.
  - apply rtc_once. apply (bool_decide_unpack _). by vm_compute.
Defined.

Lemma collect_in_descendant_then_abort_witness :
  exists st' n0,
    (forall n, n0 <= n ->
       abort no_actions no_actions n 0 (with_heap (collect 1 9) ex_state) = Done st')
    /\ (forall n, ex_rank 0 < n -> aborted n (heap st') 0 = Some true)
    /\ exists tr',
         trace st' = trace ex_state ++ tr'
         /\ EvOp 1 9 ∈ tr'
         /\ count_occ event_eq_dec tr' (EvEmit 0 Abort) = 1
         /\ count_occ event_eq_dec tr' (EvEmit 0 Aborted) = 1.
Proof.
  exact (collect_in_descendant_then_abort no_actions no_actions ex_rank 0 1 9 ex_state
           ex_heap_ranked ex_heap_quiet eq_refl ex_child_descendant).
Defined.

(** ** Inputs at which the unamended claims fail *)

(** C4 fails as stated.  Nobody raises and nothing is collected between
    the two calls, but the listener [11] of ["aborted"] collects the
    operation [7] at the end of every pass: the second [abort()] is a
    second full pass, which emits both events again and aborts [7]. *)
Lemma abort_idempotent_fails :
  (forall i, Throw ∉ no_actions i)
  /\ (forall i, Throw ∉ collecting 11 0 7 i)
  /\ exists st1 st2,
       (forall n, 5 <= n -> abort no_actions (collecting 11 0 7) n 0 ex_state = Done st1)
       /\ (forall n, 5 <= n -> abort no_actions (collecting 11 0 7) n 0 st1 = Done st2)
       /\ st2 <> st1
       /\ trace st2
          = trace st1 ++ [EvEmit 0 Abort; EvListener 0 Abort 10; EvOp 0 7;
                          EvEmit 0 Aborted; EvListener 0 Aborted 11]
       /\ count_occ event_eq_dec (trace st2) (EvEmit 0 Abort) = 2
       /\ count_occ event_eq_dec (trace st2) (EvEmit 0 Aborted) = 2.
Proof.
  split; [intros i; apply not_elem_of_nil|].
  split.
  { intros i. unfold collecting. case_decide; [|apply not_elem_of_nil].
    rewrite list_elem_of_singleton. discriminate. }
  eexists _, _. split; [|split; [|split; [|split; [|split]]]].
  - intros n Hn. do 5 (destruct n as [|n]; [lia|]). vm_compute. reflexivity.
  - intros n Hn. do 5 (destruct n as [|n]; [lia|]). vm_compute. reflexivity.
  - intros E. apply (f_equal (fun st => length (trace st))) in E. vm_compute in E.
    discriminate.
  - reflexivity.
  - reflexivity.
  - reflexivity.
Qed.

(** C5 fails as stated.  The getter of the aborter [2] is true;
    [collect(6)] makes it false and the next [abort()] calls the
    [abort] of [6], but the getter is false afterwards: the listener
    [11] of ["aborted"] collects [7] after the flag has been set.
    Nobody raises. *)
Lemma collect_rearms_fails :
  aborted 1 (heap ex_rearmed) 2 = Some true
  /\ (forall i, Throw ∉ no_actions i)
  /\ (forall i, Throw ∉ collecting 11 2 7 i)
  /\ exists st',
       (forall n, 5 <= n ->
          abort no_actions (collecting 11 2 7) n 2 (with_heap (collect 2 6) ex_rearmed)
          = Done st')
       /\ trace st' = [EvEmit 2 Abort; EvOp 2 6; EvEmit 2 Aborted; EvListener 2 Aborted 11]
       /\ forall n, aborted (S n) (heap st') 2 = Some false.
Proof.
  split; [reflexivity|].
  split; [intros i; apply not_elem_of_nil|].
  split.
  { intros i. unfold collecting. case_decide; [|apply not_elem_of_nil].
    rewrite list_elem_of_singleton. discriminate. }
  eexists. split; [|split].
  - intros n Hn. do 5 (destruct n as [|n]; [lia|]). vm_compute. reflexivity.
  - reflexivity.
  - intros n. reflexivity.
Qed.

(** C9 fails as stated.  The object [9] is collected twice and is once
    in [collections], but the [abort] of the operation [8], drained
    after it, collects [9] again, and the same pass calls the [abort]
    of [9] a second time.  Nobody raises. *)
Lemma collect_twice_aborts_twice :
  collections (deref (heap ex_twice) 0) = [9; 8]
  /\ (forall i, Throw ∉ collecting 8 0 9 i)
  /\ exists st',
       (forall n, 6 <= n -> abort (collecting 8 0 9) no_actions n 0 ex_twice = Done st')
       /\ trace st' = [EvEmit 0 Abort; EvOp 0 9; EvOp 0 8; EvOp 0 9; EvEmit 0 Aborted]
       /\ count_occ event_eq_dec (trace st') (EvOp 0 9) = 2.
Proof.
  split; [reflexivity|].
  split.
  { intros i. unfold collecting. case_decide; [|apply not_elem_of_nil].
    rewrite list_elem_of_singleton. discriminate. }
  eexists. split; [|split].
  - intros n Hn. do 6 (destruct n as [|n]; [lia|]). vm_compute. reflexivity.
  - reflexivity.
  - reflexivity.
Qed.


(** ** What the drain loop observes *)

Section DrainObserves.

Variable op_abort : nat -> list action.
Variable listener_body : nat -> list action.
Variables s o' : nat.

Local Abbreviation abort' := (abort op_abort listener_body).
Local Abbreviation observes' := (observes op_abort listener_body s o').
Local Abbreviation registers' := (registers op_abort listener_body s o').









Section Calls.

Variable call : nat -> state -> outcome.
Hypothesis call_observes :
  forall s0 st st', call s0 st = Done st' -> observes' False st st'.






End Calls.


End DrainObserves.

Section Reentrant.

Variable op_abort : nat -> list action.
Variable listener_body : nat -> list action.

Local Abbreviation abort' := (abort op_abort listener_body).
Local Abbreviation emit' := (emit listener_body).
Local Abbreviation drain' := (drain op_abort).
Local Abbreviation registers' := (registers op_abort listener_body).


End Reentrant.


(** ** Aborters that share a children array *)

Lemma by_reference_children_insert hy r l t :
  ByReference.children
    {| ByReference.arrays := <[r := l]> (ByReference.arrays hy);
       ByReference.children_ref := ByReference.children_ref hy |} t
  = if decide (ByReference.children_ref hy !! t = Some r)
    then l else ByReference.children hy t.
Proof.
  unfold ByReference.children. cbn [ByReference.arrays ByReference.children_ref].
  destruct (ByReference.children_ref hy !! t) as [r'|] eqn:E.
  - destruct (decide (Some r' = Some r)) as [Hr|Hr].
    + injection Hr as ->. simpl. by rewrite lookup_insert_eq.
    + simpl. rewrite lookup_insert_ne; [done | congruence].
  - by destruct (decide (None = Some r)).
Qed.

(** X14.  An aborter constructed with a [children] array holds that
    very array: its children are the elements of the array, and it
    shares the array with every aborter that already held it.  An
    aborter constructed without one gets a new empty array that no
    other aborter holds.  In both cases the children of the other
    aborters are as before. *)
Theorem constructor_children_by_reference s hy :
  ByReference.well_formed hy ->
  (forall r,
     ByReference.children_ref (ByReference.constructor s (Some r) hy) !! s = Some r
     /\ ByReference.children (ByReference.constructor s (Some r) hy) s
        = default [] (ByReference.arrays hy !! r)
     /\ forall t, s <> t ->
          ByReference.children_ref (ByReference.constructor s (Some r) hy) !! t
          = ByReference.children_ref hy !! t
          /\ ByReference.children (ByReference.constructor s (Some r) hy) t
             = ByReference.children hy t)
  /\ ByReference.children (ByReference.constructor s None hy) s = []
  /\ ByReference.well_formed (ByReference.constructor s None hy)
  /\ forall t, s <> t ->
       ByReference.children_ref (ByReference.constructor s None hy) !! t
       <> ByReference.children_ref (ByReference.constructor s None hy) !! s
       /\ ByReference.children (ByReference.constructor s None hy) t
          = ByReference.children hy t.
Proof.
  intros Hwf. split; [|split; [|split]].
  - intros r. unfold ByReference.constructor, ByReference.children. simpl.
    rewrite lookup_insert_eq. split; [done|]. split; [done|].
    intros t Hne. by rewrite lookup_insert_ne.
  - unfold ByReference.constructor, ByReference.children. simpl.
    by rewrite lookup_insert_eq; simpl; rewrite lookup_insert_eq.
  - intros t r. unfold ByReference.constructor. simpl.
    destruct (decide (s = t)) as [<-|Hne].
    + rewrite lookup_insert_eq. intros [= <-]. by rewrite lookup_insert_eq.
    + rewrite lookup_insert_ne by done. intros Ht.
      destruct (Hwf t r Ht) as [l Hl].
      destruct (decide (stdpp.base.fresh (dom (ByReference.arrays hy)) = r)) as [E|E].
      * subst r. by rewrite lookup_insert_eq.
      * rewrite lookup_insert_ne by done. by exists l.
  - intros t Hne. unfold ByReference.constructor, ByReference.children. simpl.
    rewrite lookup_insert_eq, lookup_insert_ne by done.
    assert (Hfresh : forall r, ByReference.children_ref hy !! t = Some r ->
                               stdpp.base.fresh (dom (ByReference.arrays hy)) <> r).
    { intros r Ht E. destruct (Hwf t r Ht) as [l Hl].
      apply (is_fresh (dom (ByReference.arrays hy))).
      rewrite E. apply elem_of_dom. by exists l. }
    split.
    + intros E. by apply (Hfresh _ E).
    + destruct (ByReference.children_ref hy !! t) as [r|] eqn:Ht; simpl; [|done].
      rewrite lookup_insert_ne; [done|]. by apply Hfresh.
Qed.

(** X15.  [addChildAborter] and [removeChildAborter] change the array
    the aborter holds: afterwards every aborter that holds the same
    array has the new elements (the child appended; the array with one
    element spliced out at [indexOf(child)]), and every other aborter
    has the children it had. *)
Theorem children_shared_by_reference s c r hy :
  ByReference.children_ref hy !! s = Some r ->
  forall t,
    ByReference.children (ByReference.addChildAborter s c hy) t
    = (if decide (ByReference.children_ref hy !! t = Some r)
       then ByReference.children hy s ++ [c]
       else ByReference.children hy t)
    /\ ByReference.children (ByReference.removeChildAborter s c hy) t
       = (if decide (ByReference.children_ref hy !! t = Some r)
          then JsArray.splice (ByReference.children hy s)
                 (JsArray.indexOf (ByReference.children hy s) c) 1
          else ByReference.children hy t).
Proof.
  intros Hs t. unfold ByReference.addChildAborter, ByReference.removeChildAborter.
  rewrite Hs. by rewrite !by_reference_children_insert.
Qed.

Lemma ex_shared_well_formed : ByReference.well_formed ex_shared.
Proof.
  intros t r. unfold ex_shared. simpl.
  destruct (decide (t = 2)) as [->|H2]; [|rewrite lookup_insert_ne by done;
    destruct (decide (t = 1)) as [->|H1]; [|by rewrite lookup_insert_ne by done]];
    rewrite lookup_insert_eq; intros [= <-]; by rewrite lookup_insert_eq.
Qed.

Lemma constructor_children_by_reference_witness :
  ByReference.well_formed ex_shared
  /\ ByReference.children_ref ex_shared !! 1 = Some 0
  /\ ByReference.children (ByReference.constructor 5 (Some 0) ex_shared) 5 = [3; 4]
  /\ ByReference.children (ByReference.constructor 5 None ex_shared) 5 = []
  /\ ByReference.children (ByReference.constructor 5 None ex_shared) 1 = [3; 4].
Proof.
  destruct (constructor_children_by_reference 5 ex_shared ex_shared_well_formed)
    as (Hsome & Hnone & _ & Hothers).
  split; [exact ex_shared_well_formed|]. split; [reflexivity|].
  split; [|split].
  - rewrite (proj1 (proj2 (Hsome 0))). reflexivity.
  - exact Hnone.
  - rewrite (proj2 (Hothers 1 ltac:(lia))). reflexivity.
Defined.

Lemma children_shared_by_reference_witness :
  ByReference.children_ref ex_shared !! 1 = Some 0
  /\ ByReference.children_ref ex_shared !! 2 = Some 0
  /\ ByReference.children ex_shared 2 = [3; 4]
  /\ ByReference.children (ByReference.removeChildAborter 1 3 ex_shared) 2 = [4]
  /\ ByReference.children (ByReference.addChildAborter 1 9 ex_shared) 2 = [3; 4; 9].
Proof.
  split; [reflexivity|]. split; [reflexivity|]. split; [reflexivity|].
  pose proof (children_shared_by_reference 1 3 0 ex_shared eq_refl 2) as [_ Hremove].
  pose proof (children_shared_by_reference 1 9 0 ex_shared eq_refl 2) as [Hadd _].
  split; [rewrite Hremove | rewrite Hadd]; reflexivity.
Defined.
